(** * Format: a printf-style formatter (Clover's [fmt] namespace)

    A shallow embedding of [Format.h] and [Format.cpp]: the sink interface
    [FormatterArgs], its two native realisations, the specifier parser, the
    numeric renderer, the field formatters and the engine [doprintf],
    followed by the properties of the engine that the specification
    states. *)

From Stdlib Require Import ZArith List Ascii String Bool Lia.
Import ListNotations.
Open Scope Z_scope.

(** ** Machine integers

    Every C++ integer is a [Z] together with the wrap-around of its type;
    signed arithmetic wraps as well, as it does on the two's-complement
    targets of the library. *)

Definition u8 (x : Z) : Z := x mod 2 ^ 8.
Definition u16 (x : Z) : Z := x mod 2 ^ 16.
Definition u32 (x : Z) : Z := x mod 2 ^ 32.
Definition u64 (x : Z) : Z := x mod 2 ^ 64.
Definition s8 (x : Z) : Z := (x + 2 ^ 7) mod 2 ^ 8 - 2 ^ 7.
Definition s32 (x : Z) : Z := (x + 2 ^ 31) mod 2 ^ 32 - 2 ^ 31.
Definition s64 (x : Z) : Z := (x + 2 ^ 63) mod 2 ^ 64 - 2 ^ 63.

(** ** Characters and C strings *)

Definition chr (a : ascii) : Z := Z.of_N (N_of_ascii a).
Arguments chr a%_char.

Definition bytes (s : string) : list Z := map chr (list_ascii_of_string s).

(** The memory image of a string literal: its bytes and the terminator. *)
Definition cstr (s : string) : list Z := bytes s ++ [0].

(** [load m i] is [m[i]]; outside the region the access is undefined. *)
Definition load (m : list Z) (i : Z) : option Z :=
  if i <? 0 then None else nth_error m (Z.to_nat i).

(** [store m i v] is [m[i] = v]; outside the region the access is undefined. *)
Definition store (m : list Z) (i : Z) (v : Z) : option (list Z) :=
  if (0 <=? i) && (i <? Z.of_nat (List.length m))
  then Some (firstn (Z.to_nat i) m ++ v :: skipn (S (Z.to_nat i)) m)
  else None.

(** The characters of the null-terminated string that starts a region;
    [None] when the region holds no terminator. *)
Fixpoint strz (m : list Z) : option (list Z) :=
  match m with
  | [] => None
  | c :: r => if c =? 0 then Some [] else option_map (cons c) (strz r)
  end.

(** ** Results of effectful code

    [Fault] is undefined behaviour of the C++ (an access outside a region, a
    [va_arg] past the arguments); [OutOfFuel] is the model's loop bound. *)

Inductive result (A : Type) : Type :=
| Ok (a : A)
| Fault
| OutOfFuel.
Arguments Ok {A} a.
Arguments Fault {A}.
Arguments OutOfFuel {A}.

Definition M (F A : Type) : Type := F -> result (A * F).

Definition ret {F A : Type} (a : A) : M F A := fun s => Ok (a, s).

Definition bind {F A B : Type} (m : M F A) (k : A -> M F B) : M F B :=
  fun s => match m s with
           | Ok (a, s') => k a s'
           | Fault => Fault
           | OutOfFuel => OutOfFuel
           end.

Definition timeout {F A : Type} : M F A := fun _ => OutOfFuel.

(** A read of the state, an update of it, and both at once. *)
Definition rd {F A : Type} (g : F -> option A) : M F A :=
  fun s => match g s with Some a => Ok (a, s) | None => Fault end.
Definition wr {F : Type} (g : F -> option F) : M F unit :=
  fun s => match g s with Some s' => Ok (tt, s') | None => Fault end.
Definition st {F A : Type} (g : F -> option (A * F)) : M F A :=
  fun s => match g s with Some r => Ok r | None => Fault end.
Definition pure_ {F A : Type} (o : option A) : M F A :=
  fun s => match o with Some a => Ok (a, s) | None => Fault end.

Declare Scope fmt_scope.
Delimit Scope fmt_scope with fmt.
Notation "x <- m ;; k" := (bind m (fun x => k))
  (at level 61, m at next level, right associativity) : fmt_scope.
Notation "' p <- m ;; k" := (bind m (fun x => match x with p => k end))
  (at level 61, p pattern, m at next level, right associativity) : fmt_scope.
Notation "m ;; k" := (bind m (fun _ => k))
  (at level 61, right associativity) : fmt_scope.
Open Scope fmt_scope.

(** ** The sink interface: [class FormatterArgs] *)

(** [enum class Type] *)
Inductive ArgType : Type := i8 | i16 | i32 | flt | str | ptr.

Class FormatterArgs (F : Type) : Type := {
  getChar : Z -> F -> option Z;          (* uint8_t getChar(uint32_t i) const *)
  putChar : Z -> F -> option F;          (* void putChar(uint8_t c) *)
  getStringChar : Z -> F -> option Z;    (* uint8_t getStringChar(uintptr_t p) const *)
  getArg : ArgType -> F -> option (Z * F); (* uintptr_t getArg(Type type) *)
  end_ : F -> option F                   (* void end() *)
}.

(** ** [class NativePrintArgs] *)

(** One argument of the [va_list].  A [double] is kept as the bit pattern
    of its conversion to [float], which is all [getArg] returns of it. *)
Inductive va_slot : Type :=
| VaInt (v : Z)
| VaDouble (floatBits : Z)
| VaPtr (p : Z).

(** [_fmt] is the memory the format pointer points into, [_args] the
    remaining variadic arguments; [memory] is the memory string arguments
    point into, indexed by address, and [stdout] what [::putchar] has
    written. *)
Record NativePrintArgs : Type := mkNativePrintArgs {
  _fmt : list Z;
  _args : list va_slot;
  memory : list Z;
  stdout : list Z
}.

Definition NativePrintArgs_getChar (i : Z) (f : NativePrintArgs) : option Z :=
  load (_fmt f) i.

Definition NativePrintArgs_putChar (c : Z) (f : NativePrintArgs) : option NativePrintArgs :=
  Some (mkNativePrintArgs (_fmt f) (_args f) (memory f) (stdout f ++ [c])).

(** [va_arg] with the type the tag selects; a slot of another kind, or no
    slot, is undefined.  A pointer slot read as [uint32_t] gives its low
    half, as on the LP64 hosts. *)
Definition NativePrintArgs_getArg (type : ArgType) (f : NativePrintArgs)
  : option (Z * NativePrintArgs) :=
  match _args f with
  | [] => None
  | a :: rest =>
      let f' := mkNativePrintArgs (_fmt f) rest (memory f) (stdout f) in
      match type, a with
      | flt, VaDouble d => Some (u32 d, f')
      | flt, _ => None
      | str, VaPtr p => Some (u64 p, f')
      | str, _ => None
      | _, VaInt v => Some (u32 v, f')
      | _, VaPtr p => Some (u32 p, f')
      | _, VaDouble _ => None
      end
  end.

Definition NativePrintArgs_getStringChar (p : Z) (f : NativePrintArgs) : option Z :=
  load (memory f) p.

#[export] Instance NativePrintArgs_FormatterArgs : FormatterArgs NativePrintArgs := {
  getChar := NativePrintArgs_getChar;
  putChar := NativePrintArgs_putChar;
  getStringChar := NativePrintArgs_getStringChar;
  getArg := NativePrintArgs_getArg;
  end_ := fun f => Some f
}.

(** ** [class NativeFormatArgs : public NativePrintArgs] *)

Record NativeFormatArgs : Type := mkNativeFormatArgs {
  base : NativePrintArgs;
  _buf : list Z;
  _size : Z;
  _index : Z
}.

(** [if (_index < _size - 1) { _buf[_index++] = c; }]; both operands are
    promoted to [int], so the subtraction does not wrap. *)
Definition NativeFormatArgs_putChar (c : Z) (f : NativeFormatArgs) : option NativeFormatArgs :=
  if _index f <? _size f - 1 then
    match store (_buf f) (_index f) c with
    | Some b => Some (mkNativeFormatArgs (base f) b (_size f) (u16 (_index f + 1)))
    | None => None
    end
  else Some f.

Definition NativeFormatArgs_getArg (type : ArgType) (f : NativeFormatArgs)
  : option (Z * NativeFormatArgs) :=
  match NativePrintArgs_getArg type (base f) with
  | Some (v, b) => Some (v, mkNativeFormatArgs b (_buf f) (_size f) (_index f))
  | None => None
  end.

#[export] Instance NativeFormatArgs_FormatterArgs : FormatterArgs NativeFormatArgs := {
  getChar := fun i f => NativePrintArgs_getChar i (base f);
  putChar := NativeFormatArgs_putChar;
  getStringChar := fun p f => NativePrintArgs_getStringChar p (base f);
  getArg := NativeFormatArgs_getArg;
  end_ := NativeFormatArgs_putChar 0     (* void end() { putChar('\0'); } *)
}.

(** ** Flags *)

(** [enum class Flag] *)
Inductive Flag : Type := leftJustify | plus | space | alt | zeroPad.

Definition Flag_value (flag : Flag) : Z :=
  match flag with
  | leftJustify => 0x01
  | plus => 0x02
  | space => 0x04
  | alt => 0x08
  | zeroPad => 0x10
  end.

Definition isFlag (flags : Z) (flag : Flag) : bool :=
  negb (Z.land flags (Flag_value flag) =? 0).

Definition setFlag (flags : Z) (flag : Flag) : Z :=
  u8 (Z.lor flags (Flag_value flag)).

Inductive Capital : Type := CapitalYes | CapitalNo.
Inductive Signed : Type := SignedYes | SignedNo.
Inductive FloatType : Type := Float | Exp | Shortest.
Inductive Length : Type := LNone | H | HH | L | LL | J | Z_ | T.

Definition MaxIntegerBufferSize : Z := 24.

(** ** The numeric renderer: [intToString]

    [buf] is the caller's buffer and [size] its size; the result is the
    buffer after the call and the index [p - buf] of the returned pointer.
    The digit loop runs down the buffer, so it is written by recursion on
    the slots left below [p]: with none left and [value] still non-zero the
    next write falls before the buffer. *)

Fixpoint intToString_loop (slots : nat) (value : Z) (buf : list Z) (base hexBase : Z)
  : option (list Z * Z) :=
  if value =? 0 then Some (buf, Z.of_nat slots)
  else
    match slots with
    | O => None
    | S p =>
        if base =? 0 then None
        else
          let digit := u8 (value mod base) in
          let c := if digit >? 9 then digit - 10 + hexBase else digit + chr "0" in
          match store buf (Z.of_nat p) (u8 c) with
          | Some buf' => intToString_loop p (u64 (value / base)) buf' base hexBase
          | None => None
          end
    end.

Definition intToString (value : Z) (buf : list Z) (size : Z) (base : Z) (cap : Capital)
  : option (list Z * Z) :=
  if value =? 0 then
    match store buf 0 (chr "0") with
    | Some b0 =>
        match store b0 1 0 with
        | Some b1 => Some (b1, 0)
        | None => None
        end
    | None => None
    end
  else
    let hexBase := match cap with CapitalYes => chr "A" | CapitalNo => chr "a" end in
    match store buf (size - 1) 0 with
    | Some b => intToString_loop (Z.to_nat (size - 1)) value b base hexBase
    | None => None
    end.

(** ** The engine, over any sink *)

Section Engine.

Context {F : Type} `{FormatterArgs F}.

(** The float-to-string routine of [Format.h]: the null-terminated content
    it leaves in its 20-byte buffer, from the bits of the [float], the
    [int8_t] width and the [uint8_t] precision. *)
Variable toString : Z -> Z -> Z -> list Z.

(** [putChar] on each character in turn. *)
Fixpoint putChars (l : list Z) : M F unit :=
  match l with
  | [] => ret tt
  | c :: r => wr (putChar c) ;; putChars r
  end.

(** [toNumber]: the cursor, [n] and the returned [haveNumber]. *)
Fixpoint toNumber_loop (fuel : nat) (fmt n : Z) (haveNumber : bool) : M F (bool * Z * Z) :=
  match fuel with
  | O => timeout
  | S k =>
      c <- rd (getChar fmt) ;;
      if (c <? chr "0") || (c >? chr "9") then ret (haveNumber, fmt, n)
      else toNumber_loop k (u32 (fmt + 1)) (u32 (n * 10 + c - chr "0")) true
  end.

Definition toNumber (fuel : nat) (fmt : Z) : M F (bool * Z * Z) :=
  toNumber_loop fuel fmt 0 false.

(** [handleFlags]: the cursor and the flags after the run of flag characters. *)
Fixpoint handleFlags (fuel : nat) (fmt flags : Z) : M F (Z * Z) :=
  match fuel with
  | O => timeout
  | S k =>
      c <- rd (getChar fmt) ;;
      if c =? chr "-" then handleFlags k (u32 (fmt + 1)) (setFlag flags leftJustify)
      else if c =? chr "+" then handleFlags k (u32 (fmt + 1)) (setFlag flags plus)
      else if c =? chr " " then handleFlags k (u32 (fmt + 1)) (setFlag flags space)
      else if c =? chr "#" then handleFlags k (u32 (fmt + 1)) (setFlag flags alt)
      else if c =? chr "0" then handleFlags k (u32 (fmt + 1)) (setFlag flags zeroPad)
      else ret (fmt, flags)
  end.

(** [handleWidth]: the returned value and the cursor. *)
Definition handleWidth (fuel : nat) (fmt : Z) : M F (Z * Z) :=
  c <- rd (getChar fmt) ;;
  if c =? chr "*" then
    v <- st (getArg i16) ;;
    ret (s32 v, u32 (fmt + 1))
  else
    '(haveNumber, fmt, n) <- toNumber fuel fmt ;;
    ret (if haveNumber then s32 n else -1, fmt).

(** [handleLength]: the returned length and the cursor.  [getChar] is
    [const], so the character under the cursor is read once for the chain
    of comparisons. *)
Definition handleLength (fmt : Z) : M F (Length * Z) :=
  c <- rd (getChar fmt) ;;
  if c =? chr "h" then
    let fmt := u32 (fmt + 1) in
    c' <- rd (getChar fmt) ;;
    if c' =? chr "h" then ret (HH, u32 (fmt + 1)) else ret (H, fmt)
  else if c =? chr "l" then
    let fmt := u32 (fmt + 1) in
    c' <- rd (getChar fmt) ;;
    if c' =? chr "l" then ret (LL, u32 (fmt + 1)) else ret (L, fmt)
  else if c =? chr "j" then ret (J, fmt)
  else if c =? chr "z" then ret (Z_, fmt)
  else if c =? chr "t" then ret (T, fmt)
  else ret (LNone, fmt).

Definition getInteger (length : Length) : M F Z :=
  v <- st (getArg i16) ;;
  ret (s32 v).

(** [while (pad > 0) { f->putChar(padChar); size++; pad--; }] *)
Fixpoint outInteger_pad (pad : nat) (padChar size : Z) : M F Z :=
  match pad with
  | O => ret size
  | S k => wr (putChar padChar) ;; outInteger_pad k padChar (u32 (size + 1))
  end.

(** [outInteger]: the returned size.  [value] is the [uintmax_t] parameter.
    [char buf[MaxIntegerBufferSize]] is not initialised; [intToString]
    writes every byte that is read from it afterwards, and the model starts
    it as zeros. *)
Definition outInteger (value : Z) (sign : Signed) (width precision flags base : Z)
  (cap : Capital) : M F Z :=
  let size := 0 in
  '(value, size, width) <-
    match sign with
    | SignedYes =>
        let signedValue := s64 value in
        if signedValue <? 0 then
          wr (putChar (chr "-")) ;;
          ret (u64 (- signedValue), 1, s32 (width - 1))
        else ret (value, size, width)
    | SignedNo => ret (value, size, width)
    end ;;
  '(size, width) <-
    (if isFlag flags alt && negb (base =? 10) then
       wr (putChar (chr "0")) ;;
       let size := u32 (size + 1) in
       let width := s32 (width - 1) in
       if base =? 16 then
         wr (putChar (match cap with CapitalYes => chr "X" | CapitalNo => chr "x" end)) ;;
         ret (u32 (size + 1), s32 (width - 1))
       else ret (size, width)
     else ret (size, width)) ;;
  '(buf, p) <- pure_ (intToString (u64 value) (repeat 0 (Z.to_nat MaxIntegerBufferSize))
                                 MaxIntegerBufferSize base cap) ;;
  let size := u32 (size + u32 p) in
  digits <- pure_ (strz (skipn (Z.to_nat p) buf)) ;;
  let pad := s32 (width - s32 (Z.of_nat (List.length digits))) in
  let padChar := if isFlag flags zeroPad then chr "0" else chr " " in
  size <- outInteger_pad (Z.to_nat pad) padChar size ;;
  putChars digits ;;
  ret (s32 size).

(** The read loop of [outString]: the size after the terminator is found. *)
Fixpoint outString_loop (fuel : nat) (p size : Z) : M F Z :=
  match fuel with
  | O => timeout
  | S k =>
      c <- rd (getStringChar p) ;;
      if c =? 0 then ret size
      else wr (putChar c) ;; outString_loop k (u64 (p + 1)) (s32 (size + 1))
  end.

(** [outString]: the returned size.  Inside the [if] the new [width] is
    positive, and [while (width--)] runs that many times. *)
Definition outString (fuel : nat) (p width precision flags : Z) : M F Z :=
  size <- outString_loop fuel p 0 ;;
  (if width >? size then
     let width := s32 (width - size) in
     putChars (repeat (chr " ") (Z.to_nat width))
   else ret tt) ;;
  ret size.

(** The optional part of a directive (flags, width, precision, length),
    from the cursor just after the [%]: the flags, the width, the precision,
    the length and the cursor, which is left on the specifier character. *)
Definition doprintf_optional (fuel : nat) (fmt flags : Z) : M F (Z * Z * Z * Length * Z) :=
  '(fmt, flags) <- handleFlags fuel fmt flags ;;
  '(width, fmt) <- handleWidth fuel fmt ;;
  c <- rd (getChar fmt) ;;
  '(precision, fmt) <-
    (if c =? chr "." then handleWidth fuel (u32 (fmt + 1)) else ret (-1, fmt)) ;;
  '(length, fmt) <- handleLength fmt ;;
  ret (flags, width, precision, length, fmt).

(** The [FloatType] and [Capital] the float case computes and never uses. *)
Definition floatKind (c : Z) : Capital * FloatType :=
  if c =? chr "f" then (CapitalNo, Float)
  else if c =? chr "F" then (CapitalYes, Float)
  else if c =? chr "e" then (CapitalNo, Exp)
  else if c =? chr "E" then (CapitalYes, Exp)
  else if c =? chr "g" then (CapitalNo, Shortest)
  else if c =? chr "G" then (CapitalYes, Shortest)
  else (CapitalNo, Shortest).

(** The [switch] on the specifier character [c = f->getChar(fmt)]: the
    running size and the cursor after it.  [u64 v] is the conversion of
    the [int32_t] that [getInteger] returns to the [uintmax_t] parameter of
    [outInteger]. *)
Definition doprintf_specifier (fuel : nat) (c width precision flags : Z) (length : Length)
  (size fmt : Z) : M F (Z * Z) :=
  if (c =? chr "d") || (c =? chr "i") then
    v <- getInteger length ;;
    n <- outInteger (u64 v) SignedYes width precision flags 10 CapitalNo ;;
    ret (s32 (size + n), fmt)
  else if c =? chr "u" then
    v <- getInteger length ;;
    n <- outInteger (u64 v) SignedNo width precision flags 10 CapitalNo ;;
    ret (s32 (size + n), fmt)
  else if c =? chr "o" then
    v <- getInteger length ;;
    n <- outInteger (u64 v) SignedNo width precision flags 8 CapitalNo ;;
    ret (s32 (size + n), fmt)
  else if (c =? chr "x") || (c =? chr "X") then
    v <- getInteger length ;;
    n <- outInteger (u64 v) SignedNo width precision flags 16
           (if c =? chr "X" then CapitalYes else CapitalNo) ;;
    ret (s32 (size + n), fmt)
  else if (c =? chr "f") || (c =? chr "F") || (c =? chr "e") || (c =? chr "E")
          || (c =? chr "g") || (c =? chr "G") then
    let '(cap, type) := floatKind c in
    v <- st (getArg flt) ;;
    let buf := toString (u32 (s32 v)) (s8 width) (u8 (if precision <? 0 then 6 else precision)) in
    text <- pure_ (strz buf) ;;
    putChars text ;;
    ret (size, fmt)
  else if c =? chr "c" then
    v <- st (getArg i8) ;;
    wr (putChar (u8 v)) ;;
    ret (s32 (size + 1), fmt)
  else if c =? chr "b" then
    v <- st (getArg i8) ;;
    let s := if v =? 0 then bytes "false" else bytes "true" in
    putChars s ;;
    ret (size, fmt)
  else if c =? chr "s" then
    p <- st (getArg str) ;;
    n <- outString fuel p width precision flags ;;
    ret (s32 (size + n), fmt)
  else if c =? chr "p" then
    v <- st (getArg ptr) ;;
    n <- outInteger v SignedNo width precision flags 16 CapitalNo ;;
    ret (s32 (size + n), fmt)
  else
    (* f->putChar(f->getChar(fmt++)); size++; *)
    c' <- rd (getChar fmt) ;;
    wr (putChar c') ;;
    ret (s32 (size + 1), u32 (fmt + 1)).

(** One directive, from the cursor just after its [%] to the [++fmt] that
    ends the loop body: the flags, the size and the cursor it leaves. *)
Definition doprintf_directive (fuel : nat) (flags size fmt : Z) : M F (Z * Z * Z) :=
  '(flags, width, precision, length, fmt) <- doprintf_optional fuel fmt flags ;;
  c <- rd (getChar fmt) ;;
  '(size, fmt) <- doprintf_specifier fuel c width precision flags length size fmt ;;
  ret (flags, size, u32 (fmt + 1)).

(** The [while] loop of [doprintf].  [flags], [size] and [fmt] are the
    locals declared before it; [inner] bounds the loops of the callees. *)
Fixpoint doprintf_loop (inner fuel : nat) (flags size fmt : Z) : M F Z :=
  match fuel with
  | O => timeout
  | S k =>
      c <- rd (getChar fmt) ;;
      if c =? 0 then ret size
      else if negb (c =? chr "%") then
        wr (putChar c) ;;
        doprintf_loop inner k flags (s32 (size + 1)) (u32 (fmt + 1))
      else
        '(flags, size, fmt) <- doprintf_directive inner flags size (u32 (fmt + 1)) ;;
        doprintf_loop inner k flags size fmt
  end.

Definition doprintf (fuel : nat) : M F Z :=
  size <- doprintf_loop fuel fuel 0 0 0 ;;
  wr end_ ;;
  ret size.

End Engine.

(** ** The entry points *)

Section EntryPoints.

Variable toString : Z -> Z -> Z -> list Z.

(** No loop of the engine outlives the regions it reads: each round moves
    a cursor one byte further into the format or into the string memory. *)
Definition fuelFor (fmt memory : list Z) : nat :=
  S (List.length fmt + List.length memory).

(** [fmt::vprintf(fmt, args)]: the returned count and the sink at the end. *)
Definition vprintf (fmt : list Z) (args : list va_slot) (memory : list Z)
  : result (Z * NativePrintArgs) :=
  doprintf toString (fuelFor fmt memory) (mkNativePrintArgs fmt args memory []).

(** [fmt::vformat(s, n, fmt, args)]; [s] is the caller's buffer as it is
    before the call. *)
Definition vformat (s : list Z) (n : Z) (fmt : list Z) (args : list va_slot) (memory : list Z)
  : result (Z * NativeFormatArgs) :=
  doprintf toString (fuelFor fmt memory)
    (mkNativeFormatArgs (mkNativePrintArgs fmt args memory []) s (u16 n) 0).

End EntryPoints.

(** ** Notions the properties are stated with *)

(** The specifier characters the [switch] of [doprintf] has a case for. *)
Definition recognized (c : Z) : bool :=
  existsb (Z.eqb c) (bytes "diuoxXfFeEgGcbsp").

Definition floatSpecifier (c : Z) : bool :=
  existsb (Z.eqb c) (bytes "fFeEgG").

(** Reading a digit string as hexadecimal, as the round trip of [%x]
    asks: the value of one digit, and of a non-empty run of them. *)
Definition hexDigit (c : Z) : option Z :=
  if (chr "0" <=? c) && (c <=? chr "9") then Some (c - chr "0")
  else if (chr "a" <=? c) && (c <=? chr "f") then Some (c - chr "a" + 10)
  else if (chr "A" <=? c) && (c <=? chr "F") then Some (c - chr "A" + 10)
  else None.

Fixpoint parseHex_from (acc : Z) (l : list Z) : option Z :=
  match l with
  | [] => Some acc
  | c :: r =>
      match hexDigit c with
      | Some d => parseHex_from (acc * 16 + d) r
      | None => None
      end
  end.

Definition parseHex (l : list Z) : option Z :=
  match l with
  | [] => None
  | _ => parseHex_from 0 l
  end.

(** What a buffer that held [s] and has room for [n - 1] characters holds
    once the characters [out] have been put into it. *)
Definition stored (s : list Z) (n : Z) (out : list Z) : list Z :=
  firstn (Z.to_nat (n - 1)) out
  ++ skipn (Nat.min (List.length out) (Z.to_nat (n - 1))) s.

(** The buffer sink [q] is the device sink [p] with its output cut to the
    buffer that held [s]. *)
Definition truncates (s : list Z) (n : Z) (p : NativePrintArgs) (q : NativeFormatArgs) : Prop :=
  _fmt (base q) = _fmt p /\
  _args (base q) = _args p /\
  memory (base q) = memory p /\
  _size q = n /\
  _buf q = stored s n (stdout p) /\
  _index q = Z.of_nat (Nat.min (List.length (stdout p)) (Z.to_nat (n - 1))).

(** The same code run on the two sinks keeps them so related and comes to
    the same end. *)
Definition sim (s : list Z) (n : Z) {A : Type}
  (m1 : M NativePrintArgs A) (m2 : M NativeFormatArgs A) : Prop :=
  forall p q, truncates s n p q ->
    match m1 p with
    | Ok (a, p') => exists q', m2 q = Ok (a, q') /\ truncates s n p' q'
    | Fault => m2 q = Fault
    | OutOfFuel => m2 q = OutOfFuel
    end.

(** The bit a flag is, for reasoning about [isFlag]. *)
Definition Flag_bit (flag : Flag) : Z :=
  match flag with
  | leftJustify => 0
  | plus => 1
  | space => 2
  | alt => 3
  | zeroPad => 4
  end.

(** A character the loop of [doprintf] copies to the output. *)
Definition literal (c : Z) : Prop := c <> 0 /\ c <> chr "%".

(** [m], run on a device sink whose format and string memory are [fm] and
    [mm], ends: it returns or hits undefined behaviour, it does not run out
    of fuel; and when it returns the regions are as they were and the
    value satisfies [Q]. *)
Definition ends (fm mm : list Z) {A : Type} (m : M NativePrintArgs A) (Q : A -> Prop) : Prop :=
  forall s, _fmt s = fm /\ memory s = mm ->
    match m s with
    | Ok (a, s') => (_fmt s' = fm /\ memory s' = mm) /\ Q a
    | Fault => True
    | OutOfFuel => False
    end.

(** Fuel that outlasts a cursor at [i] in a region of [n] bytes. *)
Definition outlasts (fuel : nat) (n i : Z) : Prop :=
  0 <= i /\ 1 <= Z.of_nat fuel /\ n - i < Z.of_nat fuel.

(** Reading a digit string in a base up to 16. *)
Fixpoint parseDigits_from (base acc : Z) (l : list Z) : option Z :=
  match l with
  | [] => Some acc
  | c :: r =>
      match hexDigit c with
      | Some d => if d <? base then parseDigits_from base (acc * base + d) r else None
      | None => None
      end
  end.

Definition parseDigits (base : Z) (l : list Z) : option Z :=
  match l with
  | [] => None
  | _ => parseDigits_from base 0 l
  end.

(** What [outInteger] writes before the padding: whether the value is
    taken as negative, the magnitude that is rendered, the sign and the
    alternate-form prefix. *)
Definition negative (sign : Signed) (value : Z) : bool :=
  match sign with
  | SignedYes => s64 value <? 0
  | SignedNo => false
  end.

Definition magnitude (sign : Signed) (value : Z) : Z :=
  if negative sign value then u64 (- s64 value) else value.

Definition signText (sign : Signed) (value : Z) : list Z :=
  if negative sign value then [chr "-"] else [].

Definition altPrefix (flags base : Z) (cap : Capital) : list Z :=
  if isFlag flags alt && negb (base =? 10) then
    chr "0" :: (if base =? 16
                then [match cap with CapitalYes => chr "X" | CapitalNo => chr "x" end]
                else [])
  else [].

(** The character that sets a flag in [handleFlags]. *)
Definition Flag_char (flag : Flag) : Z :=
  match flag with
  | leftJustify => chr "-"
  | plus => chr "+"
  | space => chr " "
  | alt => chr "#"
  | zeroPad => chr "0"
  end.

(** A decimal digit. *)
Definition digit (c : Z) : Prop := chr "0" <= c <= chr "9".

(** The same code on two sinks that a relation [R] ties together: it ends
    the same way on both, with the same value and the sinks still tied. *)
Definition simulated {F1 F2 A : Type} (R : F1 -> F2 -> Prop)
  (m1 : M F1 A) (m2 : M F2 A) : Prop :=
  forall p q, R p q ->
    match m1 p, m2 q with
    | Ok (a, p'), Ok (b, q') => a = b /\ R p' q'
    | Fault, Fault => True
    | OutOfFuel, OutOfFuel => True
    | _, _ => False
    end.

(** The buffer sink with no room ([_size] 0 or 1) beside the device sink. *)
Definition roomless (s : list Z) (p : NativePrintArgs) (q : NativeFormatArgs) : Prop :=
  _fmt (base q) = _fmt p /\
  _args (base q) = _args p /\
  memory (base q) = memory p /\
  _size q <= 1 /\
  _index q = 0 /\
  _buf q = s.

(** The cases of the [switch] that go through [getInteger]: the sign, the
    base and the capitalisation each of them gives [outInteger]. *)
Definition integerConversion (c : Z) : option (Signed * Z * Capital) :=
  if (c =? chr "d") || (c =? chr "i") then Some (SignedYes, 10, CapitalNo)
  else if c =? chr "u" then Some (SignedNo, 10, CapitalNo)
  else if c =? chr "o" then Some (SignedNo, 8, CapitalNo)
  else if c =? chr "x" then Some (SignedNo, 16, CapitalNo)
  else if c =? chr "X" then Some (SignedNo, 16, CapitalYes)
  else None.

(** Whether the directive at the cursor (just after its [%]) has [*] for
    its width or for its precision: the character [handleWidth] tests
    after the flags, and the one it tests after a [.]. *)
Definition starred {F : Type} `{FormatterArgs F} (fuel : nat) (fmt flags : Z) : M F bool :=
  '(fmt, flags) <- handleFlags fuel fmt flags ;;
  c <- rd (getChar fmt) ;;
  if c =? chr "*" then ret true
  else
    '(width, fmt) <- handleWidth fuel fmt ;;
    c <- rd (getChar fmt) ;;
    if c =? chr "." then
      c' <- rd (getChar (u32 (fmt + 1))) ;;
      ret (c' =? chr "*")
    else ret false.

(** ** Reasoning about the monad *)

Lemma bind_Ok {F A B : Type} (m : M F A) (k : A -> M F B) (s s' : F) (a : A) :
  m s = Ok (a, s') -> bind m k s = k a s'.
Proof. intros E. unfold bind. now rewrite E. Qed.

Lemma rd_Some {F A : Type} (g : F -> option A) (s : F) (a : A) :
  g s = Some a -> rd g s = Ok (a, s).
Proof. intros E. unfold rd. now rewrite E. Qed.

Lemma wr_Some {F : Type} (g : F -> option F) (s s' : F) :
  g s = Some s' -> wr g s = Ok (tt, s').
Proof. intros E. unfold wr. now rewrite E. Qed.

Lemma st_Some {F A : Type} (g : F -> option (A * F)) (s s' : F) (a : A) :
  g s = Some (a, s') -> st g s = Ok (a, s').
Proof. intros E. unfold st. now rewrite E. Qed.

Lemma pure_Some {F A : Type} (o : option A) (s : F) (a : A) :
  o = Some a -> pure_ o s = Ok (a, s).
Proof. intros E. unfold pure_. now rewrite E. Qed.

Lemma bind_bind {F A B C : Type} (m : M F A) (k : A -> M F B) (k' : B -> M F C) (s : F) :
  bind (bind m k) k' s = bind m (fun a => bind (k a) k') s.
Proof. unfold bind. destruct (m s) as [[a s']| |]; reflexivity. Qed.

(** Run the next statement of a monadic block with the given fact. *)
Ltac step E :=
  first
    [ erewrite (bind_Ok _ _ _ _ _ (rd_Some _ _ _ E))
    | erewrite (bind_Ok _ _ _ _ _ (wr_Some _ _ _ E))
    | erewrite (bind_Ok _ _ _ _ _ (st_Some _ _ _ _ E))
    | erewrite (bind_Ok _ _ _ _ _ (pure_Some _ _ _ E))
    | erewrite (bind_Ok _ _ _ _ _ E) ];
  cbv beta iota.

(** ** The specifier parser *)

Section Parser.

Context {F : Type} `{FormatterArgs F}.

Lemma toNumber_no_digit (fuel : nat) (fmt c : Z) (f : F) :
  getChar fmt f = Some c ->
  c < chr "0" \/ chr "9" < c ->
  toNumber (S fuel) fmt f = Ok ((false, fmt, 0), f).
Proof.
  intros Hc Hnd. unfold toNumber. cbn [toNumber_loop]. step Hc.
  replace ((c <? chr "0") || (c >? chr "9")) with true; [reflexivity|].
  symmetry. apply orb_true_iff. rewrite Z.ltb_lt, Z.gtb_ltb, Z.ltb_lt. exact Hnd.
Qed.

Lemma handleWidth_no_number (fuel : nat) (fmt c : Z) (f : F) :
  getChar fmt f = Some c ->
  c <> chr "*" ->
  c < chr "0" \/ chr "9" < c ->
  handleWidth (S fuel) fmt f = Ok ((-1, fmt), f).
Proof.
  intros Hc Hstar Hnd. unfold handleWidth. step Hc.
  apply Z.eqb_neq in Hstar. rewrite Hstar.
  step (toNumber_no_digit fuel fmt c f Hc Hnd). reflexivity.
Qed.

(** The optional part of a directive whose [.] is followed by a character
    that is neither a digit nor [*]: [toNumber] reports that it read no
    number, [handleWidth] then returns -1 instead of the accumulator's 0,
    and the cursor is left on the character after the [.] for
    [handleLength]. *)
Lemma doprintf_optional_bare_dot
  (fuel : nat) (fmt flags : Z) (f f1 f2 f3 : F)
  (fmt1 flags1 width fmt2 c fmt3 : Z) (length : Length) :
  handleFlags (S fuel) fmt flags f = Ok ((fmt1, flags1), f1) ->
  handleWidth (S fuel) fmt1 f1 = Ok ((width, fmt2), f2) ->
  getChar fmt2 f2 = Some (chr ".") ->
  getChar (u32 (fmt2 + 1)) f2 = Some c ->
  c <> chr "*" ->
  c < chr "0" \/ chr "9" < c ->
  handleLength (u32 (fmt2 + 1)) f2 = Ok ((length, fmt3), f3) ->
  doprintf_optional (S fuel) fmt flags f = Ok ((flags1, width, -1, length, fmt3), f3).
Proof.
  intros Hflags Hwidth Hdot Hc Hstar Hnd Hlen.
  unfold doprintf_optional.
  step Hflags. step Hwidth. step Hdot.
  change (chr "." =? chr ".") with true. cbv iota.
  step (handleWidth_no_number fuel _ c f2 Hc Hstar Hnd).
  step Hlen. reflexivity.
Qed.

(** [j], [z] and [t] set the length and leave the cursor on the letter. *)
Lemma handleLength_j_z_t (fmt c : Z) (f : F) :
  getChar fmt f = Some c ->
  c = chr "j" \/ c = chr "z" \/ c = chr "t" ->
  exists length, length <> LNone /\ handleLength fmt f = Ok ((length, fmt), f).
Proof.
  intros Hc [-> | [-> | ->]]; unfold handleLength; step Hc;
    [exists J | exists Z_ | exists T]; (split; [discriminate | reflexivity]).
Qed.

(** Any other character leaves the length [None] and the cursor in place. *)
Lemma handleLength_none (fmt c : Z) (f : F) :
  getChar fmt f = Some c ->
  existsb (Z.eqb c) (bytes "hljzt") = false ->
  handleLength fmt f = Ok ((LNone, fmt), f).
Proof.
  intros Hc Hn. cbn [existsb bytes map list_ascii_of_string] in Hn.
  repeat (apply orb_false_elim in Hn; destruct Hn as [?E Hn]).
  unfold handleLength. step Hc.
  repeat match goal with E : (c =? _) = false |- _ => rewrite E; clear E end.
  reflexivity.
Qed.

End Parser.

(** C3, as the specification has it, fails: in [%.d] the [.] is followed
    by [d], and the precision of the directive is not 0; and with a
    [toString] that prints the precision it is given, [%.f] prints 6, the
    default of the float case for a precision that is not given. *)
Lemma precision_after_bare_dot_is_not_zero :
  let f := mkNativePrintArgs (cstr "%.d") [VaInt 7] [] [] in
  getChar 1 f = Some (chr ".") /\
  getChar 2 f = Some (chr "d") /\
  match doprintf_optional 3 1 0 f with
  | Ok ((_, _, precision, _, _), _) => precision <> 0
  | _ => False
  end /\
  vprintf (fun _ _ precision => [chr "0" + precision; 0]) (cstr "%.f") [VaDouble 0] []
  = Ok (0, mkNativePrintArgs (cstr "%.f") [] [] (bytes "6")).
Proof.
  intros f. split; [reflexivity | split; [reflexivity | split]].
  - vm_compute. discriminate.
  - vm_compute. reflexivity.
Qed.

(** ** The conversion dispatcher *)

Section Directive.

Context {F : Type} `{FormatterArgs F}.
Variable toString : Z -> Z -> Z -> list Z.

(** The cases of the [switch], one equation per claim about them. *)

Lemma specifier_b (fuel : nat) (width precision flags size fmt : Z) (length : Length) :
  doprintf_specifier toString fuel (chr "b") width precision flags length size fmt
  = (v <- st (getArg i8) ;;
     putChars (if v =? 0 then bytes "false" else bytes "true") ;;
     ret (size, fmt)).
Proof. reflexivity. Qed.

Lemma floatSpecifier_cases (c : Z) :
  floatSpecifier c = true ->
  c = chr "f" \/ c = chr "F" \/ c = chr "e" \/ c = chr "E" \/ c = chr "g" \/ c = chr "G".
Proof.
  unfold floatSpecifier. cbn [existsb bytes map list_ascii_of_string].
  rewrite !orb_true_iff, !Z.eqb_eq. intuition discriminate.
Qed.

Lemma specifier_float (fuel : nat) (c width precision flags size fmt : Z) (length : Length) :
  floatSpecifier c = true ->
  doprintf_specifier toString fuel c width precision flags length size fmt
  = (v <- st (getArg flt) ;;
     text <- pure_ (strz (toString (u32 (s32 v)) (s8 width)
                            (u8 (if precision <? 0 then 6 else precision)))) ;;
     putChars text ;;
     ret (size, fmt)).
Proof.
  intros Hc.
  destruct (floatSpecifier_cases c Hc) as [->|[->|[->|[->|[->| ->]]]]]; reflexivity.
Qed.

Lemma specifier_default (fuel : nat) (c width precision flags size fmt : Z) (length : Length) :
  recognized c = false ->
  doprintf_specifier toString fuel c width precision flags length size fmt
  = (c' <- rd (getChar fmt) ;;
     wr (putChar c') ;;
     ret (s32 (size + 1), u32 (fmt + 1))).
Proof.
  unfold recognized. cbn [existsb bytes map list_ascii_of_string].
  intros Hc.
  repeat (apply orb_false_elim in Hc; destruct Hc as [?E Hc]).
  unfold doprintf_specifier.
  repeat match goal with E : (c =? _) = false |- _ => rewrite E; clear E end.
  reflexivity.
Qed.

(** C7.  A [%b] directive fetches exactly one argument, tagged [i8], writes
    the text "true" when it is non-zero and "false" when it is zero, and
    leaves the running size as it was: after the optional part the sink
    sees one [getArg(Type::i8)] and the [putChar]s of the text, and the
    size the call goes on with, and returns, does not count them. *)
Theorem bool_directive_not_counted
  (fuel : nat) (flags size fmt : Z) (f f1 f2 f3 : F)
  (flags' width precision fmt' v : Z) (length : Length) :
  doprintf_optional fuel fmt flags f = Ok ((flags', width, precision, length, fmt'), f1) ->
  getChar fmt' f1 = Some (chr "b") ->
  getArg i8 f1 = Some (v, f2) ->
  putChars (if v =? 0 then bytes "false" else bytes "true") f2 = Ok (tt, f3) ->
  doprintf_directive toString fuel flags size fmt f
  = Ok ((flags', size, u32 (fmt' + 1)), f3).
Proof.
  intros Hopt Hc Harg Hput.
  unfold doprintf_directive.
  step Hopt. step Hc.
  rewrite specifier_b.
  rewrite !bind_bind. step Harg. rewrite bind_bind. step Hput.
  reflexivity.
Qed.

(** A directive whose specifier character has no case in the [switch]:
    after the optional part the sink sees the one [putChar] of that
    character, the size grows by 1 and the cursor ends two past the
    character. *)
Lemma doprintf_directive_default
  (fuel : nat) (flags size fmt : Z) (f f1 f2 : F)
  (flags' width precision fmt' c : Z) (length : Length) :
  doprintf_optional fuel fmt flags f = Ok ((flags', width, precision, length, fmt'), f1) ->
  getChar fmt' f1 = Some c ->
  recognized c = false ->
  putChar c f1 = Some f2 ->
  doprintf_directive toString fuel flags size fmt f
  = Ok ((flags', s32 (size + 1), u32 (u32 (fmt' + 1) + 1)), f2).
Proof.
  intros Hopt Hc Hrec Hput.
  unfold doprintf_directive.
  step Hopt. step Hc.
  rewrite specifier_default by assumption.
  rewrite !bind_bind. step Hc. rewrite bind_bind. step Hput.
  reflexivity.
Qed.

(** C10.  A float directive ([f], [F], [e], [E], [g], [G]) fetches exactly
    one argument, tagged [flt], writes the text [toString] leaves in its
    buffer (for the width, and for the precision or 6 when it is not
    given), and leaves the running size as it was, so that the returned
    count excludes the float's characters. *)
Theorem float_directive_not_counted
  (fuel : nat) (flags size fmt : Z) (f f1 f2 f3 : F)
  (flags' width precision fmt' c v : Z) (length : Length) (text : list Z) :
  doprintf_optional fuel fmt flags f = Ok ((flags', width, precision, length, fmt'), f1) ->
  getChar fmt' f1 = Some c ->
  floatSpecifier c = true ->
  getArg flt f1 = Some (v, f2) ->
  strz (toString (u32 (s32 v)) (s8 width) (u8 (if precision <? 0 then 6 else precision)))
  = Some text ->
  putChars text f2 = Ok (tt, f3) ->
  doprintf_directive toString fuel flags size fmt f
  = Ok ((flags', size, u32 (fmt' + 1)), f3).
Proof.
  intros Hopt Hc Hflt Harg Htext Hput.
  unfold doprintf_directive.
  step Hopt. step Hc.
  rewrite specifier_float by assumption.
  rewrite !bind_bind. step Harg. rewrite bind_bind. step Htext.
  rewrite bind_bind. step Hput.
  reflexivity.
Qed.

End Directive.

(** The directives above, run on the device sink. *)

Lemma bool_directive_not_counted_witness :
  doprintf_directive (fun _ _ _ => []) 3 0 0 1
    (mkNativePrintArgs (cstr "%b") [VaInt 1] [] [])
  = Ok ((0, 0, 2), mkNativePrintArgs (cstr "%b") [] [] (bytes "true")).
Proof.
  apply (bool_directive_not_counted (fun _ _ _ => []) 3 0 0 1
           (mkNativePrintArgs (cstr "%b") [VaInt 1] [] [])
           (mkNativePrintArgs (cstr "%b") [VaInt 1] [] [])
           (mkNativePrintArgs (cstr "%b") [] [] [])
           (mkNativePrintArgs (cstr "%b") [] [] (bytes "true"))
           0 (-1) (-1) 1 1 LNone);
    reflexivity.
Defined.

Lemma float_directive_not_counted_witness :
  doprintf_directive (fun _ _ p => [chr "0" + p; 0]) 3 0 0 1
    (mkNativePrintArgs (cstr "%f") [VaDouble 1069547520] [] [])
  = Ok ((0, 0, 2), mkNativePrintArgs (cstr "%f") [] [] (bytes "6")).
Proof.
  apply (float_directive_not_counted (fun _ _ p => [chr "0" + p; 0]) 3 0 0 1
           (mkNativePrintArgs (cstr "%f") [VaDouble 1069547520] [] [])
           (mkNativePrintArgs (cstr "%f") [VaDouble 1069547520] [] [])
           (mkNativePrintArgs (cstr "%f") [] [] [])
           (mkNativePrintArgs (cstr "%f") [] [] (bytes "6"))
           0 (-1) (-1) 1 (chr "f") 1069547520 LNone (bytes "6"));
    reflexivity.
Defined.

(** Whole calls: four characters written and none counted; one character
    written for [%%] and the character after it skipped. *)

Lemma bool_call (toString : Z -> Z -> Z -> list Z) :
  vprintf toString (cstr "a%bc") [VaInt 1] []
  = Ok (2, mkNativePrintArgs (cstr "a%bc") [] [] (bytes "atruec")).
Proof. vm_compute. reflexivity. Qed.

Lemma float_call :
  vprintf (fun _ _ _ => cstr "1.5") (cstr "a%fc") [VaDouble 1069547520] []
  = Ok (2, mkNativePrintArgs (cstr "a%fc") [] [] (bytes "a1.5c")).
Proof. vm_compute. reflexivity. Qed.

Lemma percent_call (toString : Z -> Z -> Z -> list Z) :
  vprintf toString (cstr "50%% off") [] []
  = Ok (6, mkNativePrintArgs (cstr "50%% off") [] [] (bytes "50%off")).
Proof. vm_compute. reflexivity. Qed.

(** ** The numeric renderer in base 16 *)

Lemma store_nat (m : list Z) (p : nat) (v : Z) :
  (p < List.length m)%nat ->
  store m (Z.of_nat p) v = Some (firstn p m ++ v :: skipn (S p) m).
Proof.
  intros Hp. unfold store.
  replace ((0 <=? Z.of_nat p) && (Z.of_nat p <? Z.of_nat (List.length m))) with true
    by (symmetry; apply andb_true_iff; split; [apply Z.leb_le | apply Z.ltb_lt]; lia).
  now rewrite Nat2Z.id.
Qed.

Lemma strz_app (ds r : list Z) :
  Forall (fun c => c <> 0) ds -> strz (ds ++ 0 :: r) = Some ds.
Proof.
  induction 1 as [|c ds Hc _ IH]; [reflexivity|].
  cbn [app strz]. apply Z.eqb_neq in Hc. now rewrite Hc, IH.
Qed.

Lemma parseHex_from_app (ds : list Z) (c : Z) : forall acc,
  parseHex_from acc (ds ++ [c])
  = match parseHex_from acc ds with
    | Some a => parseHex_from a [c]
    | None => None
    end.
Proof.
  induction ds as [|d ds IH]; intros acc; [reflexivity|].
  cbn [app parseHex_from]. destruct (hexDigit d); [apply IH | reflexivity].
Qed.

(** The character [intToString] writes for a digit is a hexadecimal digit
    of that value. *)
Lemma hexDigit_rendered (hexBase d : Z) :
  hexBase = chr "a" \/ hexBase = chr "A" ->
  0 <= d < 16 ->
  let c := u8 (if u8 d >? 9 then u8 d - 10 + hexBase else u8 d + chr "0") in
  c <> 0 /\ hexDigit c = Some d.
Proof.
  intros Hb Hd.
  assert (Hcases : d = 0 \/ d = 1 \/ d = 2 \/ d = 3 \/ d = 4 \/ d = 5 \/ d = 6 \/ d = 7 \/
                   d = 8 \/ d = 9 \/ d = 10 \/ d = 11 \/ d = 12 \/ d = 13 \/ d = 14 \/ d = 15)
    by lia.
  destruct Hb as [-> | ->];
    repeat (destruct Hcases as [-> | Hcases]; [vm_compute; split; [discriminate | reflexivity] |]);
    subst d; vm_compute; split; (discriminate || reflexivity).
Qed.

Lemma intToString_loop_hex (hexBase : Z) :
  hexBase = chr "a" \/ hexBase = chr "A" ->
  forall (slots : nat) (value : Z) (buf : list Z),
    0 <= value < 16 ^ Z.of_nat slots ->
    value < 2 ^ 64 ->
    (slots <= List.length buf)%nat ->
    exists digits,
      (List.length digits <= slots)%nat /\
      intToString_loop slots value buf 16 hexBase
      = Some (firstn (slots - List.length digits) buf ++ digits ++ skipn slots buf,
              Z.of_nat (slots - List.length digits)) /\
      Forall (fun c => c <> 0) digits /\
      (value <> 0 -> digits <> []) /\
      forall acc, parseHex_from acc digits
                  = Some (acc * 16 ^ Z.of_nat (List.length digits) + value).
Proof.
  intros Hb. induction slots as [|p IH]; intros value buf Hv H64 Hlen.
  - assert (value = 0) by (cbn in Hv; lia). subst value.
    exists []. cbn [intToString_loop List.length app firstn skipn Nat.sub].
    change (0 =? 0) with true. cbv iota.
    split; [lia|]. split; [reflexivity|]. split; [constructor|].
    split; [intros E; now elim E|]. intros acc. cbn. f_equal. lia.
  - destruct (Z.eq_dec value 0) as [-> | Hnz].
    + exists []. cbn [intToString_loop List.length app]. rewrite Nat.sub_0_r.
      change (0 =? 0) with true. cbv iota. rewrite firstn_skipn.
      split; [lia|]. split; [reflexivity|]. split; [constructor|].
      split; [intros E; now elim E|]. intros acc. cbn. f_equal. lia.
    + cbn [intToString_loop].
      apply Z.eqb_neq in Hnz. rewrite Hnz. apply Z.eqb_neq in Hnz.
      change (16 =? 0) with false. cbv iota.
      set (c := u8 (if u8 (value mod 16) >? 9 then u8 (value mod 16) - 10 + hexBase
                    else u8 (value mod 16) + chr "0")).
      assert (Hd : 0 <= value mod 16 < 16) by (apply Z.mod_pos_bound; lia).
      destruct (hexDigit_rendered hexBase (value mod 16) Hb Hd) as [Hc0 Hcd].
      fold c in Hc0, Hcd.
      rewrite store_nat by lia.
      assert (Hq : 0 <= value / 16 < 16 ^ Z.of_nat p).
      { split; [apply Z.div_pos; lia|].
        apply Z.div_lt_upper_bound; [lia|].
        rewrite Nat2Z.inj_succ, Z.pow_succ_r in Hv by lia. lia. }
      assert (Hq64 : value / 16 < 2 ^ 64).
      { apply Z.div_lt_upper_bound; lia. }
      replace (u64 (value / 16)) with (value / 16)
        by (unfold u64; symmetry; apply Z.mod_small; lia).
      set (buf' := firstn p buf ++ c :: skipn (S p) buf).
      assert (Hlen' : (p <= List.length buf')%nat).
      { unfold buf'. rewrite length_app, length_firstn. lia. }
      destruct (IH (value / 16) buf' Hq Hq64 Hlen') as (ds & Hk & Hrun & Hnz' & _ & Hparse).
      exists (ds ++ [c]). rewrite length_app. cbn [List.length].
      split; [lia|]. split.
      * rewrite Hrun. f_equal. f_equal.
        -- unfold buf'. rewrite firstn_app, length_firstn.
           replace (p - List.length ds - Nat.min p (List.length buf))%nat with 0%nat by lia.
           cbn [firstn]. rewrite app_nil_r, firstn_firstn.
           replace (S p - (List.length ds + 1))%nat with (p - List.length ds)%nat by lia.
           f_equal.
           ++ f_equal. lia.
           ++ rewrite <- app_assoc. f_equal. cbn [app].
              rewrite skipn_app, length_firstn.
              rewrite skipn_all2 by (rewrite length_firstn; lia).
              replace (p - Nat.min p (List.length buf))%nat with 0%nat by lia.
              reflexivity.
        -- lia.
      * split; [apply Forall_app; split; [exact Hnz' | constructor; [exact Hc0 | constructor]]|].
        split; [intros _ E; destruct ds; discriminate E|].
        intros acc. rewrite parseHex_from_app, Hparse. cbn [parseHex_from]. rewrite Hcd.
        f_equal.
        replace (Z.of_nat (List.length ds + 1)) with (Z.succ (Z.of_nat (List.length ds))) by lia.
        rewrite Z.pow_succ_r by lia.
        pose proof (Z.div_mod value 16 ltac:(lia)). lia.
Qed.

(** [intToString] in base 16, whatever the buffer held: the text from the
    returned pointer reads back as the value. *)
Lemma intToString_hex (value : Z) (buf : list Z) (cap : Capital) :
  0 <= value < 2 ^ 64 ->
  List.length buf = 24%nat ->
  exists buf' p digits,
    intToString value buf MaxIntegerBufferSize 16 cap = Some (buf', p) /\
    0 <= p < 24 /\
    strz (skipn (Z.to_nat p) buf') = Some digits /\
    (0 < List.length digits <= 23)%nat /\
    parseHex digits = Some value.
Proof.
  intros Hv Hlen. unfold intToString, MaxIntegerBufferSize.
  destruct (Z.eq_dec value 0) as [-> | Hnz].
  - destruct buf as [|a [|b r]]; try discriminate Hlen.
    exists (chr "0" :: 0 :: r), 0, [chr "0"].
    change (0 =? 0) with true. cbv iota.
    change (store (a :: b :: r) 0) with (store (a :: b :: r) (Z.of_nat 0)).
    rewrite store_nat by (cbn; lia). cbn [firstn skipn app].
    change (store (chr "0" :: b :: r) 1) with (store (chr "0" :: b :: r) (Z.of_nat 1)).
    rewrite store_nat by (cbn; lia). cbn [firstn skipn app].
    repeat split; try reflexivity; cbn; lia.
  - apply Z.eqb_neq in Hnz. rewrite Hnz. apply Z.eqb_neq in Hnz.
    change (24 - 1) with (Z.of_nat 23). rewrite store_nat by lia. rewrite Nat2Z.id.
    set (hexBase := match cap with CapitalYes => chr "A" | CapitalNo => chr "a" end).
    assert (Hb : hexBase = chr "a" \/ hexBase = chr "A") by (destruct cap; auto).
    set (b := firstn 23 buf ++ 0 :: skipn 24 buf).
    assert (Hb23 : skipn 23 b = [0]).
    { unfold b. rewrite skipn_app, length_firstn, Hlen.
      rewrite skipn_all2 by (rewrite length_firstn; lia).
      rewrite skipn_all2 with (n := 24%nat) by lia. reflexivity. }
    assert (Hblen : List.length b = 24%nat).
    { unfold b. rewrite length_app, length_firstn. cbn [List.length].
      rewrite length_skipn. lia. }
    assert (H16 : 16 ^ Z.of_nat 23 = 2 ^ 92) by reflexivity.
    destruct (intToString_loop_hex hexBase Hb 23 value b ltac:(lia) ltac:(lia) ltac:(lia))
      as (ds & Hk & Hrun & Hnz' & Hne & Hparse).
    exists (firstn (23 - List.length ds) b ++ ds ++ skipn 23 b),
           (Z.of_nat (23 - List.length ds)), ds.
    split; [exact Hrun|]. split; [lia|]. split.
    + rewrite Nat2Z.id, skipn_app, length_firstn, Hb23.
      rewrite skipn_all2 by (rewrite length_firstn; lia).
      replace (23 - List.length ds - Nat.min (23 - List.length ds) (List.length b))%nat
        with 0%nat by lia.
      cbn [skipn app]. apply strz_app, Hnz'.
    + specialize (Hne Hnz). split; [destruct ds; [congruence | cbn [List.length] in *; lia]|].
      unfold parseHex. destruct ds; [congruence|]. rewrite Hparse. reflexivity.
Qed.

(** ** The device sink *)

Lemma putChars_native (l : list Z) : forall f : NativePrintArgs,
  putChars l f = Ok (tt, mkNativePrintArgs (_fmt f) (_args f) (memory f) (stdout f ++ l)).
Proof.
  induction l as [|c l IH]; intros f.
  - cbn. rewrite app_nil_r. now destruct f.
  - cbn [putChars]. unfold bind, wr. cbn [putChar NativePrintArgs_FormatterArgs].
    unfold NativePrintArgs_putChar. rewrite IH. cbn. now rewrite <- app_assoc.
Qed.

Lemma s32_small (x : Z) : - 2 ^ 31 <= x < 2 ^ 31 -> s32 x = x.
Proof. intros Hx. unfold s32. rewrite Z.mod_small by lia. lia. Qed.

Lemma u32_small (x : Z) : 0 <= x < 2 ^ 32 -> u32 x = x.
Proof. intros Hx. unfold u32. now rewrite Z.mod_small by lia. Qed.

Lemma u64_small (x : Z) : 0 <= x < 2 ^ 64 -> u64 x = x.
Proof. intros Hx. unfold u64. now rewrite Z.mod_small by lia. Qed.

(** [%x] with no flag and no width: the digits written read back as the
    64-bit value [outInteger] was given. *)
Lemma outInteger_hex_native (value precision : Z) (cap : Capital) (f : NativePrintArgs) :
  0 <= value < 2 ^ 64 ->
  exists size digits,
    outInteger value SignedNo (-1) precision 0 16 cap f
    = Ok (size, mkNativePrintArgs (_fmt f) (_args f) (memory f) (stdout f ++ digits)) /\
    parseHex digits = Some value.
Proof.
  intros Hv. unfold outInteger.
  destruct (intToString_hex (u64 value) (repeat 0 (Z.to_nat MaxIntegerBufferSize)) cap)
    as (buf' & p & digits & Hrun & Hp & Hstr & Hlen & Hparse).
  { unfold u64. apply Z.mod_pos_bound. lia. }
  { reflexivity. }
  rewrite (u64_small value Hv) in Hrun, Hparse.
  cbv [bind ret]. change (isFlag 0 alt && negb (16 =? 10)) with false. cbv iota beta.
  rewrite (u64_small value Hv). unfold pure_. rewrite Hrun, Hstr.
  replace (Z.to_nat (s32 (-1 - s32 (Z.of_nat (List.length digits))))) with 0%nat
    by (rewrite !s32_small; rewrite ?s32_small; lia).
  cbn [outInteger_pad]. cbv [ret]. rewrite putChars_native.
  eexists; eexists; split; [reflexivity | exact Hparse].
Qed.

(** The 64-bit value [%x] renders for a 32-bit argument. *)
Lemma u64_s32 (v : Z) :
  0 <= v < 2 ^ 32 ->
  u64 (s32 v) = if v <? 2 ^ 31 then v else v + (2 ^ 64 - 2 ^ 32).
Proof.
  intros Hv. unfold u64, s32.
  destruct (Z.ltb_spec v (2 ^ 31)).
  - rewrite (Z.mod_small (v + 2 ^ 31)) by lia. rewrite Z.mod_small; lia.
  - replace (v + 2 ^ 31) with (v - 2 ^ 31 + 1 * 2 ^ 32) by lia.
    rewrite Z.mod_add by lia. rewrite (Z.mod_small (v - 2 ^ 31)) by lia.
    replace (v - 2 ^ 31 - 2 ^ 31) with (v + (2 ^ 64 - 2 ^ 32) + (-1) * 2 ^ 64) by lia.
    rewrite Z.mod_add by lia. rewrite Z.mod_small; lia.
Qed.

(** ** The loop of [doprintf], one round at a time *)

Section Loop.

Context {F : Type} `{FormatterArgs F}.
Variable toString : Z -> Z -> Z -> list Z.

Lemma doprintf_loop_end (inner k : nat) (flags size fmt : Z) (f : F) :
  getChar fmt f = Some 0 ->
  doprintf_loop toString inner (S k) flags size fmt f = Ok (size, f).
Proof. intros Hc. cbn [doprintf_loop]. step Hc. reflexivity. Qed.

Lemma doprintf_loop_literal (inner k : nat) (flags size fmt c : Z) (f f' : F) :
  getChar fmt f = Some c ->
  c <> 0 ->
  c <> chr "%" ->
  putChar c f = Some f' ->
  doprintf_loop toString inner (S k) flags size fmt f
  = doprintf_loop toString inner k flags (s32 (size + 1)) (u32 (fmt + 1)) f'.
Proof.
  intros Hc Hz Hp Hput. cbn [doprintf_loop]. step Hc.
  apply Z.eqb_neq in Hz, Hp. rewrite Hz, Hp. cbn [negb].
  step Hput. reflexivity.
Qed.

Lemma doprintf_loop_directive (inner k : nat) (flags size fmt : Z) (f f' : F)
  (flags' size' fmt' : Z) :
  getChar fmt f = Some (chr "%") ->
  doprintf_directive toString inner flags size (u32 (fmt + 1)) f
  = Ok ((flags', size', fmt'), f') ->
  doprintf_loop toString inner (S k) flags size fmt f
  = doprintf_loop toString inner k flags' size' fmt' f'.
Proof.
  intros Hc Hd. cbn [doprintf_loop]. step Hc.
  change (chr "%" =? 0) with false. change (chr "%" =? chr "%") with true.
  cbn [negb]. step Hd. reflexivity.
Qed.

Lemma specifier_x (fuel : nat) (width precision flags size fmt : Z) (length : Length) :
  doprintf_specifier toString fuel (chr "x") width precision flags length size fmt
  = (v <- getInteger length ;;
     n <- outInteger (u64 v) SignedNo width precision flags 16 CapitalNo ;;
     ret (s32 (size + n), fmt)).
Proof. reflexivity. Qed.

Lemma specifier_s (fuel : nat) (width precision flags size fmt : Z) (length : Length) :
  doprintf_specifier toString fuel (chr "s") width precision flags length size fmt
  = (p <- st (getArg str) ;;
     n <- outString fuel p width precision flags ;;
     ret (s32 (size + n), fmt)).
Proof. reflexivity. Qed.

End Loop.

(** C5, as the code has it.  [%x] of a 32-bit value [v] prints digits
    that read back as [v] only below 2^31; from 2^31 on they read back as
    [v + (2^64 - 2^32)]: [getInteger] returns the argument as [int32_t],
    and its conversion to the [uintmax_t] parameter of [outInteger] extends
    the sign, so that sixteen digits are printed with eight leading [f]s. *)
Theorem hex_round_trip_sign_extended (toString : Z -> Z -> Z -> list Z)
  (v : Z) (mem : list Z) :
  0 <= v < 2 ^ 32 ->
  exists m f,
    vprintf toString (cstr "%x") [VaInt v] mem = Ok (m, f) /\
    parseHex (stdout f) = Some (if v <? 2 ^ 31 then v else v + (2 ^ 64 - 2 ^ 32)).
Proof.
  intros Hv. unfold vprintf, doprintf, fuelFor.
  set (f0 := mkNativePrintArgs (cstr "%x") [VaInt v] mem []).
  set (f1 := mkNativePrintArgs (cstr "%x") [] mem []).
  change (List.length (cstr "%x") + List.length mem)%nat with (S (S (S (List.length mem)))).
  set (k := List.length mem).
  assert (Hopt : doprintf_optional (S (S (S (S k)))) 1 0 f0 = Ok ((0, -1, -1, LNone, 1), f0))
    by reflexivity.
  assert (Hint : getInteger LNone f0 = Ok (s32 (u32 v), f1)) by reflexivity.
  rewrite (u32_small v Hv) in Hint.
  destruct (outInteger_hex_native (u64 (s32 v)) (-1) CapitalNo f1)
    as (size & digits & Hout & Hparse).
  { unfold u64. apply Z.mod_pos_bound. lia. }
  rewrite (u64_s32 v Hv) in Hparse.
  set (f2 := mkNativePrintArgs (_fmt f1) (_args f1) (memory f1) (stdout f1 ++ digits)) in Hout.
  assert (Hdir : doprintf_directive toString (S (S (S (S k)))) 0 0 (u32 (0 + 1)) f0
                 = Ok ((0, s32 (0 + size), 2), f2)).
  { unfold doprintf_directive. step Hopt.
    assert (Hc : getChar 1 f0 = Some (chr "x")) by reflexivity. step Hc.
    rewrite specifier_x, !bind_bind. step Hint. rewrite bind_bind. step Hout.
    reflexivity. }
  exists (s32 (0 + size)), f2. split; [|exact Hparse].
  assert (Hc0 : getChar 0 f0 = Some (chr "%")) by reflexivity.
  assert (Hc2 : getChar 2 f2 = Some 0) by reflexivity.
  unfold bind at 1.
  rewrite (doprintf_loop_directive toString _ _ 0 0 0 f0 f2 _ _ _ Hc0 Hdir).
  rewrite (doprintf_loop_end toString _ _ _ _ _ f2 Hc2).
  reflexivity.
Qed.

Lemma hex_round_trip_sign_extended_witness :
  exists m f,
    vprintf (fun _ _ _ => []) (cstr "%x") [VaInt 4294967295] [] = Ok (m, f) /\
    parseHex (stdout f) = Some (2 ^ 64 - 1).
Proof.
  apply (hex_round_trip_sign_extended (fun _ _ _ => []) 4294967295 []). lia.
Defined.

(** The text itself at that input. *)
Lemma hex_of_uint32_max (toString : Z -> Z -> Z -> list Z) :
  exists m f, vprintf toString (cstr "%x") [VaInt 4294967295] [] = Ok (m, f)
              /\ stdout f = bytes "ffffffffffffffff".
Proof. eexists; eexists; split; vm_compute; reflexivity. Qed.

(** ** The string path on the device sink *)

Lemma load_skipn (m : list Z) (p c : Z) (r : list Z) :
  0 <= p ->
  skipn (Z.to_nat p) m = c :: r ->
  load m p = Some c.
Proof.
  intros Hp Hs. unfold load.
  replace (p <? 0) with false by (symmetry; apply Z.ltb_ge; lia).
  rewrite <- hd_error_skipn, Hs. reflexivity.
Qed.

Lemma outString_loop_native (str : list Z) :
  Forall (fun c => c <> 0) str ->
  forall (fuel : nat) (p size : Z) (rest : list Z) (f : NativePrintArgs),
    (List.length str < fuel)%nat ->
    0 <= p ->
    p + Z.of_nat (List.length str) < 2 ^ 64 ->
    - 2 ^ 31 <= size ->
    size + Z.of_nat (List.length str) < 2 ^ 31 ->
    skipn (Z.to_nat p) (memory f) = str ++ 0 :: rest ->
    outString_loop fuel p size f
    = Ok (size + Z.of_nat (List.length str),
          mkNativePrintArgs (_fmt f) (_args f) (memory f) (stdout f ++ str)).
Proof.
  induction 1 as [|c str Hc _ IH]; intros fuel p size rest f Hfuel Hp Hwrap Hlo Hhi Hmem;
    (destruct fuel as [|k]; [cbn in Hfuel; lia|]); cbn [outString_loop].
  - assert (Hl : getStringChar p f = Some 0) by (apply (load_skipn _ _ _ rest Hp Hmem)).
    step Hl. change (0 =? 0) with true. cbv iota. cbn [List.length].
    rewrite Z.add_0_r, app_nil_r. now destruct f.
  - cbn [List.length] in *.
    assert (Hl : getStringChar p f = Some c)
      by (apply (load_skipn _ _ _ (str ++ 0 :: rest) Hp Hmem)).
    step Hl. apply Z.eqb_neq in Hc. rewrite Hc.
    unfold bind at 1. unfold wr. cbn [putChar NativePrintArgs_FormatterArgs].
    unfold NativePrintArgs_putChar.
    rewrite (u64_small (p + 1)) by lia. rewrite (s32_small (size + 1)) by lia.
    rewrite (IH k (p + 1) (size + 1) rest) by
      (cbn [memory]; try lia;
       replace (Z.to_nat (p + 1)) with (1 + Z.to_nat p)%nat by lia;
       rewrite <- skipn_skipn, Hmem; reflexivity).
    cbn [_fmt _args memory stdout]. rewrite <- app_assoc. cbn [app].
    do 2 f_equal. lia.
Qed.

(** C6, as the code has it.  A [%s] directive whose width exceeds the
    length [L] of the string writes the [L] bytes of the string and then
    [width - L] spaces, and adds [L] to the running size: [outString]
    returns the count of string bytes only, and the padding it writes is
    not counted. *)
Theorem string_directive_padding_not_counted (toString : Z -> Z -> Z -> list Z)
  (fuel : nat) (width precision flags size fmt p : Z) (length : Length)
  (f : NativePrintArgs) (args : list va_slot) (text rest : list Z) :
  _args f = VaPtr p :: args ->
  0 <= p ->
  p + Z.of_nat (List.length text) < 2 ^ 64 ->
  skipn (Z.to_nat p) (memory f) = text ++ 0 :: rest ->
  Forall (fun c => c <> 0) text ->
  (List.length text < fuel)%nat ->
  Z.of_nat (List.length text) < width < 2 ^ 31 ->
  doprintf_specifier toString fuel (chr "s") width precision flags length size fmt f
  = Ok ((s32 (size + Z.of_nat (List.length text)), fmt),
        mkNativePrintArgs (_fmt f) args (memory f)
          (stdout f ++ text
           ++ repeat (chr " ") (Z.to_nat (width - Z.of_nat (List.length text))))).
Proof.
  intros Hargs Hp Hwrap Hmem Hnz Hfuel Hw.
  rewrite specifier_s.
  assert (Harg : getArg str f
                 = Some (p, mkNativePrintArgs (_fmt f) args (memory f) (stdout f))).
  { cbn. unfold NativePrintArgs_getArg. rewrite Hargs. now rewrite u64_small by lia. }
  step Harg. unfold outString. rewrite !bind_bind.
  erewrite bind_Ok by
    (apply (outString_loop_native text Hnz fuel p 0 rest); cbn [memory]; try assumption; lia).
  cbv beta. rewrite Z.add_0_l.
  replace (width >? Z.of_nat (List.length text)) with true
    by (symmetry; apply Z.gtb_lt; lia).
  rewrite bind_bind. rewrite s32_small by lia.
  erewrite bind_Ok by apply putChars_native.
  cbn. rewrite <- app_assoc. reflexivity.
Qed.

Lemma string_directive_padding_not_counted_witness :
  doprintf_specifier (fun _ _ _ => []) 3 (chr "s") 5 (-1) 0 LNone 0 2
    (mkNativePrintArgs (cstr "%5s") [VaPtr 0] (cstr "hi") [])
  = Ok ((2, 2), mkNativePrintArgs (cstr "%5s") [] (cstr "hi") (bytes "hi   ")).
Proof.
  apply (string_directive_padding_not_counted (fun _ _ _ => []) 3 5 (-1) 0 0 2 0 LNone
           (mkNativePrintArgs (cstr "%5s") [VaPtr 0] (cstr "hi") []) [] (bytes "hi") []);
    [ reflexivity | lia | cbn; lia | reflexivity
    | repeat constructor; discriminate | cbn; lia | cbn; lia ].
Defined.

(** The whole call at that input: five bytes written, 2 returned. *)
Lemma string_padding_call (toString : Z -> Z -> Z -> list Z) :
  vprintf toString (cstr "%5s") [VaPtr 0] (cstr "hi")
  = Ok (2, mkNativePrintArgs (cstr "%5s") [] (cstr "hi") (bytes "hi   ")).
Proof. vm_compute. reflexivity. Qed.

(** ** Flags live for the whole call *)

Lemma bind_Ok_inv {F A B : Type} (m : M F A) (k : A -> M F B) (s : F) (r : B * F) :
  bind m k s = Ok r -> exists a s', m s = Ok (a, s') /\ k a s' = Ok r.
Proof.
  unfold bind. destruct (m s) as [[a s']| |]; try discriminate. eauto.
Qed.

Lemma isFlag_testbit (flags : Z) (flag : Flag) :
  isFlag flags flag = Z.testbit flags (Flag_bit flag).
Proof.
  unfold isFlag.
  assert (Hv : Flag_value flag = 2 ^ Flag_bit flag) by (destruct flag; reflexivity).
  assert (Hb : 0 <= Flag_bit flag) by (destruct flag; cbn; lia).
  rewrite Hv.
  assert (Hland : Z.land flags (2 ^ Flag_bit flag)
                  = if Z.testbit flags (Flag_bit flag) then 2 ^ Flag_bit flag else 0).
  { apply Z.bits_inj'. intros i Hi. rewrite Z.land_spec, Z.pow2_bits_eqb by lia.
    destruct (Z.eqb_spec (Flag_bit flag) i) as [<- | Hne].
    - destruct (Z.testbit flags (Flag_bit flag)).
      + rewrite Z.pow2_bits_true by lia. reflexivity.
      + rewrite Z.bits_0. reflexivity.
    - rewrite andb_false_r.
      destruct (Z.testbit flags (Flag_bit flag)).
      + rewrite Z.pow2_bits_false by lia. reflexivity.
      + rewrite Z.bits_0. reflexivity. }
  rewrite Hland. destruct (Z.testbit flags (Flag_bit flag)); [|reflexivity].
  destruct flag; reflexivity.
Qed.

Lemma isFlag_setFlag_keeps (flags : Z) (set flag : Flag) :
  isFlag flags flag = true -> isFlag (setFlag flags set) flag = true.
Proof.
  rewrite !isFlag_testbit. intros Hf. unfold setFlag, u8.
  rewrite Z.mod_pow2_bits_low by (destruct flag; cbn; lia).
  rewrite Z.lor_spec, Hf. reflexivity.
Qed.

Section Flags.

Context {F : Type} `{FormatterArgs F}.
Variable toString : Z -> Z -> Z -> list Z.

Lemma handleFlags_keeps (flag : Flag) (fuel : nat) :
  forall (fmt flags : Z) (f f' : F) (fmt' flags' : Z),
    handleFlags fuel fmt flags f = Ok ((fmt', flags'), f') ->
    isFlag flags flag = true ->
    isFlag flags' flag = true.
Proof.
  induction fuel as [|k IH]; intros fmt flags f f' fmt' flags' Hrun Hf; [discriminate|].
  cbn [handleFlags] in Hrun.
  apply bind_Ok_inv in Hrun. destruct Hrun as (c & s' & _ & Hrun).
  repeat match type of Hrun with
         | (if ?b then _ else _) _ = _ =>
             destruct b; [eapply IH; [exact Hrun | now apply isFlag_setFlag_keeps] |]
         end.
  injection Hrun as _ <- _. exact Hf.
Qed.

(** A flag that is set when a directive starts is set when it ends, and
    with it when the next one starts: nothing in [doprintf] clears it. *)
Lemma doprintf_directive_keeps_flags (flag : Flag) (fuel : nat)
  (flags size fmt : Z) (f f' : F) (flags' size' fmt' : Z) :
  doprintf_directive toString fuel flags size fmt f = Ok ((flags', size', fmt'), f') ->
  isFlag flags flag = true ->
  isFlag flags' flag = true.
Proof.
  unfold doprintf_directive, doprintf_optional. intros Hrun Hf.
  rewrite bind_bind in Hrun.
  apply bind_Ok_inv in Hrun. destruct Hrun as ([fmt1 flags1] & s1 & Hflags & Hrun).
  pose proof (handleFlags_keeps flag fuel _ _ _ _ _ _ Hflags Hf) as Hf1.
  rewrite bind_bind in Hrun.
  apply bind_Ok_inv in Hrun. destruct Hrun as ([width fmt2] & s2 & _ & Hrun).
  rewrite bind_bind in Hrun.
  apply bind_Ok_inv in Hrun. destruct Hrun as (c & s3 & _ & Hrun).
  rewrite bind_bind in Hrun.
  apply bind_Ok_inv in Hrun. destruct Hrun as ([precision fmt3] & s4 & _ & Hrun).
  rewrite bind_bind in Hrun.
  apply bind_Ok_inv in Hrun. destruct Hrun as ([length fmt4] & s5 & _ & Hrun).
  cbn [bind ret] in Hrun. unfold bind at 1 in Hrun. unfold ret at 1 in Hrun.
  apply bind_Ok_inv in Hrun. destruct Hrun as (c' & s6 & _ & Hrun).
  apply bind_Ok_inv in Hrun. destruct Hrun as ([size1 fmt5] & s7 & _ & Hrun).
  injection Hrun as <- _ _ _. exact Hf1.
Qed.

End Flags.

(** ** Directives as a whole: what reaches the conversions, and the sink *)

Lemma rd_inv {F A : Type} (g : F -> option A) (s s' : F) (a : A) :
  rd g s = Ok (a, s') -> g s = Some a /\ s' = s.
Proof.
  unfold rd. destruct (g s) as [a0|]; [|discriminate].
  intros [= <- <-]. split; reflexivity.
Qed.

Section Conversions.

Context {F : Type} `{FormatterArgs F}.
Variable toString : Z -> Z -> Z -> list Z.

Lemma specifier_integer (fuel : nat) (c width precision flags size fmt : Z) (length : Length)
  (sign : Signed) (base : Z) (cap : Capital) :
  integerConversion c = Some (sign, base, cap) ->
  doprintf_specifier toString fuel c width precision flags length size fmt
  = (v <- getInteger length ;;
     n <- outInteger (u64 v) sign width precision flags base cap ;;
     ret (s32 (size + n), fmt)).
Proof.
  unfold integerConversion, doprintf_specifier.
  destruct ((c =? chr "d") || (c =? chr "i")); [intros [= <- <- <-]; reflexivity|].
  destruct (c =? chr "u"); [intros [= <- <- <-]; reflexivity|].
  destruct (c =? chr "o"); [intros [= <- <- <-]; reflexivity|].
  destruct (Z.eqb_spec c (chr "x")) as [-> | _]; [intros [= <- <- <-]; reflexivity|].
  destruct (Z.eqb_spec c (chr "X")) as [-> | _]; [intros [= <- <- <-]; reflexivity|].
  discriminate.
Qed.

Lemma specifier_p (fuel : nat) (width precision flags size fmt : Z) (length : Length) :
  doprintf_specifier toString fuel (chr "p") width precision flags length size fmt
  = (v <- st (getArg ptr) ;;
     n <- outInteger v SignedNo width precision flags 16 CapitalNo ;;
     ret (s32 (size + n), fmt)).
Proof. reflexivity. Qed.

(** [outInteger] and [outString] take the precision and do nothing with
    it. *)
Lemma outInteger_precision_unused (value : Z) (sign : Signed)
  (width precision precision' flags base : Z) (cap : Capital) :
  outInteger (F := F) value sign width precision flags base cap
  = outInteger value sign width precision' flags base cap.
Proof. reflexivity. Qed.

Lemma outString_precision_unused (fuel : nat) (p width precision precision' flags : Z) :
  outString (F := F) fuel p width precision flags
  = outString fuel p width precision' flags.
Proof. reflexivity. Qed.

(** The parsers only read the format: they leave the sink as it is, but
    for the [getArg] of a [*]. *)

Lemma handleFlags_sink (fuel : nat) :
  forall (fmt flags : Z) (f f' : F) (r : Z * Z),
    handleFlags fuel fmt flags f = Ok (r, f') -> f' = f.
Proof.
  induction fuel as [|k IH]; intros fmt flags f f' r Hrun; [discriminate|].
  cbn [handleFlags] in Hrun.
  apply bind_Ok_inv in Hrun. destruct Hrun as (c & s' & Hc & Hrun).
  apply rd_inv in Hc. destruct Hc as [_ ->].
  repeat match type of Hrun with
         | (if ?b then _ else _) _ = _ => destruct b; [exact (IH _ _ _ _ _ Hrun)|]
         end.
  now injection Hrun.
Qed.

Lemma toNumber_loop_sink (fuel : nat) :
  forall (fmt n : Z) (haveNumber : bool) (f f' : F) (r : bool * Z * Z),
    toNumber_loop fuel fmt n haveNumber f = Ok (r, f') -> f' = f.
Proof.
  induction fuel as [|k IH]; intros fmt n haveNumber f f' r Hrun; [discriminate|].
  cbn [toNumber_loop] in Hrun.
  apply bind_Ok_inv in Hrun. destruct Hrun as (c & s' & Hc & Hrun).
  apply rd_inv in Hc. destruct Hc as [_ ->].
  destruct ((c <? chr "0") || (c >? chr "9")); [now injection Hrun|].
  exact (IH _ _ _ _ _ _ Hrun).
Qed.

Lemma handleWidth_sink (fuel : nat) (fmt c : Z) (f f' : F) (r : Z * Z) :
  getChar fmt f = Some c ->
  c <> chr "*" ->
  handleWidth fuel fmt f = Ok (r, f') -> f' = f.
Proof.
  intros Hc Hstar Hrun. unfold handleWidth in Hrun.
  rewrite (bind_Ok _ _ _ _ _ (rd_Some _ _ _ Hc)) in Hrun.
  apply Z.eqb_neq in Hstar. rewrite Hstar in Hrun.
  apply bind_Ok_inv in Hrun. destruct Hrun as ([[haveNumber fmt'] n] & s' & Hnum & Hrun).
  apply toNumber_loop_sink in Hnum. subst s'.
  now injection Hrun.
Qed.

Lemma handleLength_sink (fmt : Z) (f f' : F) (r : Length * Z) :
  handleLength fmt f = Ok (r, f') -> f' = f.
Proof.
  unfold handleLength. intros Hrun.
  apply bind_Ok_inv in Hrun. destruct Hrun as (c & s' & Hc & Hrun).
  apply rd_inv in Hc. destruct Hc as [_ ->].
  cbv zeta in Hrun.
  destruct (c =? chr "h").
  { apply bind_Ok_inv in Hrun. destruct Hrun as (c' & s' & Hc & Hrun).
    apply rd_inv in Hc. destruct Hc as [_ ->].
    destruct (c' =? chr "h"); now injection Hrun. }
  destruct (c =? chr "l").
  { apply bind_Ok_inv in Hrun. destruct Hrun as (c' & s' & Hc & Hrun).
    apply rd_inv in Hc. destruct Hc as [_ ->].
    destruct (c' =? chr "l"); now injection Hrun. }
  destruct (c =? chr "j"); [now injection Hrun|].
  destruct (c =? chr "z"); [now injection Hrun|].
  destruct (c =? chr "t"); now injection Hrun.
Qed.

(** The optional part of a directive that has no [*] leaves the sink as
    it found it: it fetches no argument. *)
Lemma doprintf_optional_unstarred (fuel : nat) (fmt flags : Z) (f f1 : F)
  (r : Z * Z * Z * Length * Z) :
  doprintf_optional fuel fmt flags f = Ok (r, f1) ->
  starred fuel fmt flags f = Ok (false, f) ->
  f1 = f.
Proof.
  unfold doprintf_optional, starred. intros Hopt Hstar.
  apply bind_Ok_inv in Hopt. destruct Hopt as ([fmt1 flags1] & s1 & Hflags & Hopt).
  rewrite (bind_Ok _ _ _ _ _ Hflags) in Hstar.
  pose proof (handleFlags_sink _ _ _ _ _ _ Hflags) as E. subst s1.
  cbv beta iota in Hopt, Hstar.
  apply bind_Ok_inv in Hstar. destruct Hstar as (c & s & Hc & Hstar).
  apply rd_inv in Hc. destruct Hc as [Hc ->].
  destruct (Z.eqb_spec c (chr "*")) as [_ | Hns]; [discriminate|].
  apply bind_Ok_inv in Hopt. destruct Hopt as ([width fmt2] & s2 & Hwidth & Hopt).
  rewrite (bind_Ok _ _ _ _ _ Hwidth) in Hstar.
  pose proof (handleWidth_sink _ _ _ _ _ _ Hc Hns Hwidth) as E. subst s2.
  cbv beta iota in Hopt, Hstar.
  apply bind_Ok_inv in Hopt. destruct Hopt as (c2 & s3 & Hc2 & Hopt).
  rewrite (bind_Ok _ _ _ _ _ Hc2) in Hstar.
  apply rd_inv in Hc2. destruct Hc2 as [Hc2 ->].
  apply bind_Ok_inv in Hopt. destruct Hopt as ([precision fmt3] & s4 & Hprec & Hopt).
  cbv beta iota in Hopt.
  apply bind_Ok_inv in Hopt. destruct Hopt as ([length fmt4] & s5 & Hlen & Hopt).
  apply handleLength_sink in Hlen. subst s5.
  injection Hopt as _ <-.
  destruct (c2 =? chr ".").
  - apply bind_Ok_inv in Hstar. destruct Hstar as (c3 & s6 & Hc3 & Hstar).
    apply rd_inv in Hc3. destruct Hc3 as [Hc3 ->].
    injection Hstar as Hs. apply Z.eqb_neq in Hs.
    exact (handleWidth_sink _ _ _ _ _ _ Hc3 Hs Hprec).
  - now injection Hprec.
Qed.

(** C3, as the code has it.  In a directive whose [.] is followed by a
    character that is neither a digit nor [*], the precision is -1, the
    value of a precision that is not given, and not the 0 the accumulator
    of [toNumber] starts from: [toNumber] reports that it read no number,
    and [handleWidth] then returns -1.  That -1 is the precision argument
    of the conversion the specifier [s] selects: of [outInteger] for [d],
    [i], [u], [o], [x], [X] and for [p], and of [outString] for [s]
    (neither of them uses it); a float directive gives [toString] the 6
    it puts in the place of a negative precision.  In each case the
    directive ends as that call does. *)
Theorem precision_after_bare_dot
  (fuel : nat) (fmt flags size : Z) (f f1 f2 f3 : F)
  (fmt1 flags1 width fmt2 c fmt3 s : Z) (length : Length) :
  handleFlags (S fuel) fmt flags f = Ok ((fmt1, flags1), f1) ->
  handleWidth (S fuel) fmt1 f1 = Ok ((width, fmt2), f2) ->
  getChar fmt2 f2 = Some (chr ".") ->
  getChar (u32 (fmt2 + 1)) f2 = Some c ->
  c <> chr "*" ->
  c < chr "0" \/ chr "9" < c ->
  handleLength (u32 (fmt2 + 1)) f2 = Ok ((length, fmt3), f3) ->
  getChar fmt3 f3 = Some s ->
  doprintf_optional (S fuel) fmt flags f = Ok ((flags1, width, -1, length, fmt3), f3) /\
  (forall (sign : Signed) (base : Z) (cap : Capital) (v n : Z) (f4 f5 : F),
     integerConversion s = Some (sign, base, cap) ->
     getInteger length f3 = Ok (v, f4) ->
     outInteger (u64 v) sign width (-1) flags1 base cap f4 = Ok (n, f5) ->
     doprintf_directive toString (S fuel) flags size fmt f
     = Ok ((flags1, s32 (size + n), u32 (fmt3 + 1)), f5)) /\
  (forall (v n : Z) (f4 f5 : F),
     s = chr "p" ->
     getArg ptr f3 = Some (v, f4) ->
     outInteger v SignedNo width (-1) flags1 16 CapitalNo f4 = Ok (n, f5) ->
     doprintf_directive toString (S fuel) flags size fmt f
     = Ok ((flags1, s32 (size + n), u32 (fmt3 + 1)), f5)) /\
  (forall (p n : Z) (f4 f5 : F),
     s = chr "s" ->
     getArg str f3 = Some (p, f4) ->
     outString (S fuel) p width (-1) flags1 f4 = Ok (n, f5) ->
     doprintf_directive toString (S fuel) flags size fmt f
     = Ok ((flags1, s32 (size + n), u32 (fmt3 + 1)), f5)) /\
  (forall (v : Z) (text : list Z) (f4 f5 : F),
     floatSpecifier s = true ->
     getArg flt f3 = Some (v, f4) ->
     strz (toString (u32 (s32 v)) (s8 width) 6) = Some text ->
     putChars text f4 = Ok (tt, f5) ->
     doprintf_directive toString (S fuel) flags size fmt f
     = Ok ((flags1, size, u32 (fmt3 + 1)), f5)).
Proof.
  intros Hflags Hwidth Hdot Hc Hstar Hnd Hlen Hs.
  pose proof (doprintf_optional_bare_dot fuel fmt flags f f1 f2 f3 fmt1 flags1 width fmt2 c
                fmt3 length Hflags Hwidth Hdot Hc Hstar Hnd Hlen) as Hopt.
  split; [exact Hopt|].
  repeat split.
  - intros sign base cap v n f4 f5 Hconv Hint Hout.
    unfold doprintf_directive. step Hopt. step Hs.
    rewrite (specifier_integer _ _ _ _ _ _ _ _ _ _ _ Hconv).
    rewrite !bind_bind. step Hint. rewrite bind_bind. step Hout.
    reflexivity.
  - intros v n f4 f5 -> Harg Hout.
    unfold doprintf_directive. step Hopt. step Hs.
    rewrite specifier_p.
    rewrite !bind_bind. step Harg. rewrite bind_bind. step Hout.
    reflexivity.
  - intros p n f4 f5 -> Harg Hout.
    unfold doprintf_directive. step Hopt. step Hs.
    rewrite specifier_s.
    rewrite !bind_bind. step Harg. rewrite bind_bind. step Hout.
    reflexivity.
  - intros v text f4 f5 Hflt Harg Htext Hput.
    unfold doprintf_directive. step Hopt. step Hs.
    rewrite specifier_float by assumption.
    change (u8 (if -1 <? 0 then 6 else -1)) with 6.
    rewrite !bind_bind. step Harg. rewrite bind_bind. step Htext.
    rewrite bind_bind. step Hput.
    reflexivity.
Qed.

(** C9, as the code has it.  A directive whose specifier character has no
    case in the [switch] (the second [%] of [%%] among them) writes that
    character to the sink, adds exactly 1 to the running size and moves
    the cursor one further than the advance that ends every directive; the
    directive ends normally.  The [switch] fetches no argument for it: the
    sink after the directive is the sink after the optional part with the
    one [putChar], and when neither the width nor the precision of the
    directive is [*] the optional part has left the sink as it was, so
    that the directive as a whole fetches none. *)
Theorem unrecognized_specifier_echoed
  (fuel : nat) (flags size fmt : Z) (f f1 f2 : F)
  (flags' width precision fmt' c : Z) (length : Length) :
  doprintf_optional fuel fmt flags f = Ok ((flags', width, precision, length, fmt'), f1) ->
  getChar fmt' f1 = Some c ->
  recognized c = false ->
  putChar c f1 = Some f2 ->
  doprintf_directive toString fuel flags size fmt f
  = Ok ((flags', s32 (size + 1), u32 (u32 (fmt' + 1) + 1)), f2)
  /\ (starred fuel fmt flags f = Ok (false, f) -> f1 = f).
Proof.
  intros Hopt Hc Hrec Hput. split.
  - exact (doprintf_directive_default toString fuel flags size fmt f f1 f2
             flags' width precision fmt' c length Hopt Hc Hrec Hput).
  - exact (doprintf_optional_unstarred fuel fmt flags f f1 _ Hopt).
Qed.

End Conversions.

(** [%.d] with 7 on the device sink, and [%.f] with a [toString] that
    prints the precision it is given. *)
Lemma precision_after_bare_dot_witness :
  let d := mkNativePrintArgs (cstr "%.d") [VaInt 7] [] [] in
  let g := mkNativePrintArgs (cstr "%.f") [VaDouble 0] [] [] in
  let toString := fun _ _ precision : Z => [chr "0" + precision; 0] in
  doprintf_optional 3 1 0 d = Ok ((0, -1, -1, LNone, 2), d) /\
  doprintf_directive toString 3 0 0 1 d
  = Ok ((0, 22, 3), mkNativePrintArgs (cstr "%.d") [] [] (bytes "7")) /\
  doprintf_directive toString 3 0 0 1 g
  = Ok ((0, 0, 3), mkNativePrintArgs (cstr "%.f") [] [] (bytes "6")).
Proof.
  intros d g toString.
  destruct (precision_after_bare_dot toString 2 1 0 0 d d d d 1 0 (-1) 1 (chr "d") 2 (chr "d")
              LNone)
    as (Hopt & Hint & _); try reflexivity; [discriminate | right; reflexivity |].
  destruct (precision_after_bare_dot toString 2 1 0 0 g g g g 1 0 (-1) 1 (chr "f") 2 (chr "f")
              LNone)
    as (_ & _ & _ & _ & Hflt); try reflexivity; [discriminate | right; reflexivity |].
  split; [exact Hopt | split].
  - apply (Hint SignedYes 10 CapitalNo 7 22 (mkNativePrintArgs (cstr "%.d") [] [] [])
             (mkNativePrintArgs (cstr "%.d") [] [] (bytes "7"))); reflexivity.
  - apply (Hflt 0 (bytes "6") (mkNativePrintArgs (cstr "%.f") [] [] [])
             (mkNativePrintArgs (cstr "%.f") [] [] (bytes "6"))); reflexivity.
Defined.

(** [%%] on the device sink, with an argument waiting: the directive has
    no [*], and the argument is still there after it. *)
Lemma unrecognized_specifier_echoed_witness :
  let f := mkNativePrintArgs (cstr "%%") [VaInt 1] [] [] in
  starred 3 1 0 f = Ok (false, f) /\
  doprintf_directive (fun _ _ _ => []) 3 0 0 1 f
  = Ok ((0, 1, 3), mkNativePrintArgs (cstr "%%") [VaInt 1] [] (bytes "%")).
Proof.
  intros f.
  destruct (unrecognized_specifier_echoed (fun _ _ _ => []) 3 0 0 1 f f
              (mkNativePrintArgs (cstr "%%") [VaInt 1] [] (bytes "%"))
              0 (-1) (-1) 1 (chr "%") LNone)
    as [Hrun Hsink]; try reflexivity.
  split; [reflexivity | exact Hrun].
Defined.

(** C9, as the specification has it, fails twice.  In [%*q!] the
    specifier [q] has no case in the [switch], and the directive fetches
    an argument, the one its [*] width asks for: the 5 is gone from the
    arguments when [q] has been written.  And a call can fail: after [%%]
    or [%q] at the end of a format the two advances of the cursor leave it
    past the terminator, where the next test of the loop reads. *)
Lemma unrecognized_specifier_star_fetches_and_call_faults :
  recognized (chr "q") = false /\
  doprintf_directive (fun _ _ _ => []) 5 0 0 1
    (mkNativePrintArgs (cstr "%*q!") [VaInt 5] [] [])
  = Ok ((0, 1, 4), mkNativePrintArgs (cstr "%*q!") [] [] (bytes "q")) /\
  vprintf (fun _ _ _ => []) (cstr "%*q!") [VaInt 5] []
  = Ok (1, mkNativePrintArgs (cstr "%*q!") [] [] (bytes "q")) /\
  recognized (chr "%") = false /\
  vprintf (fun _ _ _ => []) (cstr "%%") [] [] = Fault /\
  vprintf (fun _ _ _ => []) (cstr "%q") [] [] = Fault.
Proof. repeat split; vm_compute; reflexivity. Qed.

(** ** The engine on the inputs where it parts from the specification *)

(** C2.  The flags are not fresh for each directive: [flags] is declared
    once, before the loop of [doprintf], and [handleFlags] only ever sets
    bits in it.  [%x] of 255 alone prints [ff]; after a [%#x] in the same
    call it prints [0xff]. *)
Theorem flags_leak_into_later_directives (toString : Z -> Z -> Z -> list Z) :
  (exists m f, vprintf toString (cstr "%x") [VaInt 255] [] = Ok (m, f)
               /\ stdout f = bytes "ff") /\
  (exists m f, vprintf toString (cstr "%#x%x") [VaInt 255; VaInt 255] [] = Ok (m, f)
               /\ stdout f = bytes "0xff0xff").
Proof. split; eexists; eexists; split; vm_compute; reflexivity. Qed.

(** C4.  [handleLength] on [j] (as on [z] and [t]) returns the length and
    leaves the cursor on the letter, so the [switch] sees [j] itself: [%jd]
    of 65 echoes [j], skips the [d] and fetches nothing, where [%ld] prints
    [65]. *)
Theorem length_j_z_t_not_consumed (toString : Z -> Z -> Z -> list Z) :
  let f := fun s : string => mkNativePrintArgs (cstr s) [VaInt 65] [] [] in
  handleLength 1 (f "%jd"%string) = Ok ((J, 1), f "%jd"%string) /\
  handleLength 1 (f "%zd"%string) = Ok ((Z_, 1), f "%zd"%string) /\
  handleLength 1 (f "%td"%string) = Ok ((T, 1), f "%td"%string) /\
  handleLength 1 (f "%ld"%string) = Ok ((L, 2), f "%ld"%string) /\
  vprintf toString (cstr "%jd") [VaInt 65] []
  = Ok (1, mkNativePrintArgs (cstr "%jd") [VaInt 65] [] (bytes "j")) /\
  (exists m, vprintf toString (cstr "%ld") [VaInt 65] []
             = Ok (m, mkNativePrintArgs (cstr "%ld") [] [] (bytes "65"))).
Proof. repeat split; try (eexists; vm_compute; reflexivity); vm_compute; reflexivity. Qed.

(** ** A format that ends in a bare [%] *)

Section BarePercent.

Context {F : Type} `{FormatterArgs F}.
Variable toString : Z -> Z -> Z -> list Z.

Lemma handleFlags_stop (fuel : nat) (fmt flags c : Z) (f : F) :
  getChar fmt f = Some c ->
  existsb (Z.eqb c) (bytes "-+ #0") = false ->
  handleFlags (S fuel) fmt flags f = Ok ((fmt, flags), f).
Proof.
  intros Hc Hn. cbn [existsb bytes map list_ascii_of_string] in Hn.
  repeat (apply orb_false_elim in Hn; destruct Hn as [?E Hn]).
  cbn [handleFlags]. step Hc.
  repeat match goal with E : (c =? _) = false |- _ => rewrite E; clear E end.
  reflexivity.
Qed.

(** The directive whose specifier character is the terminator: it is
    echoed like any character without a case, and the cursor ends two
    past it. *)
Lemma doprintf_directive_terminator (fuel : nat) (flags size fmt : Z) (f f' : F) :
  getChar fmt f = Some 0 ->
  putChar 0 f = Some f' ->
  doprintf_directive toString (S fuel) flags size fmt f
  = Ok ((flags, s32 (size + 1), u32 (u32 (fmt + 1) + 1)), f').
Proof.
  intros Hc Hput.
  unfold doprintf_directive, doprintf_optional. rewrite !bind_bind.
  step (handleFlags_stop fuel fmt flags 0 f Hc eq_refl). rewrite !bind_bind.
  step (handleWidth_no_number fuel fmt 0 f Hc ltac:(discriminate) ltac:(left; reflexivity)).
  rewrite !bind_bind. step Hc.
  change (0 =? chr ".") with false. cbv iota.
  rewrite !bind_bind. unfold ret at 1. unfold bind at 1.
  rewrite !bind_bind.
  step (handleLength_none fmt 0 f Hc eq_refl).
  unfold ret at 1. unfold bind at 1.
  step Hc. rewrite (specifier_default toString) by reflexivity.
  rewrite !bind_bind. step Hc. rewrite bind_bind. step Hput.
  reflexivity.
Qed.

End BarePercent.

Lemma load_app (pre rest : list Z) (c : Z) :
  load (pre ++ c :: rest) (Z.of_nat (List.length pre)) = Some c.
Proof.
  unfold load.
  replace (Z.of_nat (List.length pre) <? 0) with false by (symmetry; apply Z.ltb_ge; lia).
  rewrite Nat2Z.id, nth_error_app2, Nat.sub_diag by lia. reflexivity.
Qed.

Lemma load_past (m : list Z) (i : Z) :
  Z.of_nat (List.length m) <= i -> load m i = None.
Proof.
  intros Hi. unfold load.
  replace (i <? 0) with false by (symmetry; apply Z.ltb_ge; lia).
  apply nth_error_None. lia.
Qed.

(** A run of literal characters is copied to the output and counted. *)
Lemma doprintf_loop_literals (toString : Z -> Z -> Z -> list Z) (t : list Z) :
  Forall literal t ->
  forall (inner k : nat) (flags size : Z) (pre rest : list Z) (f : NativePrintArgs),
    _fmt f = pre ++ t ++ rest ->
    Z.of_nat (List.length pre + List.length t) < 2 ^ 32 ->
    - 2 ^ 31 <= size ->
    size + Z.of_nat (List.length t) < 2 ^ 31 ->
    doprintf_loop toString inner (List.length t + k) flags size (Z.of_nat (List.length pre)) f
    = doprintf_loop toString inner k flags (size + Z.of_nat (List.length t))
        (Z.of_nat (List.length pre + List.length t))
        (mkNativePrintArgs (_fmt f) (_args f) (memory f) (stdout f ++ t)).
Proof.
  induction 1 as [|c t [Hc0 Hcp] _ IH];
    intros inner k flags size pre rest f Hfmt Hlen Hlo Hhi.
  - cbn [List.length Nat.add]. rewrite Nat.add_0_r, Z.add_0_r, app_nil_r.
    now destruct f.
  - cbn [List.length] in *. cbn [Nat.add].
    assert (Hc : getChar (Z.of_nat (List.length pre)) f = Some c).
    { cbn. unfold NativePrintArgs_getChar. rewrite Hfmt. apply load_app. }
    rewrite (doprintf_loop_literal toString inner _ flags size _ c f
               (mkNativePrintArgs (_fmt f) (_args f) (memory f) (stdout f ++ [c]))
               Hc Hc0 Hcp eq_refl).
    rewrite s32_small, u32_small by lia.
    replace (Z.of_nat (List.length pre) + 1) with (Z.of_nat (List.length (pre ++ [c])))
      by (rewrite length_app; cbn [List.length]; lia).
    rewrite (IH inner k flags (size + 1) (pre ++ [c]) rest).
    + cbn [_fmt _args memory stdout]. rewrite <- app_assoc. cbn [app].
      rewrite length_app. cbn [List.length]. f_equal; [lia|]. f_equal. lia.
    + cbn [_fmt]. rewrite Hfmt, <- app_assoc. reflexivity.
    + rewrite length_app. cbn [List.length]. lia.
    + lia.
    + lia.
Qed.

Lemma load_bare_percent (t : list Z) :
  load (t ++ cstr "%") (Z.of_nat (List.length t)) = Some (chr "%") /\
  load (t ++ cstr "%") (Z.of_nat (List.length t) + 1) = Some 0.
Proof.
  split; [apply load_app|].
  change (cstr "%") with ([chr "%"] ++ [0]). rewrite app_assoc.
  replace (Z.of_nat (List.length t) + 1) with (Z.of_nat (List.length (t ++ [chr "%"])))
    by (rewrite length_app; cbn [List.length]; lia).
  apply load_app.
Qed.

(** C8 fails on the code for every format that ends in a bare [%] after
    literal text: the terminator is at offset [length t + 1], the last
    byte of the region, and the engine goes on to read offset
    [length t + 3]. *)
Theorem bare_percent_reads_past_terminator (toString : Z -> Z -> Z -> list Z)
  (t : list Z) (args : list va_slot) (mem : list Z) :
  Forall literal t ->
  Z.of_nat (List.length t) + 3 < 2 ^ 31 ->
  load (t ++ cstr "%") (Z.of_nat (List.length t) + 1) = Some 0 /\
  vprintf toString (t ++ cstr "%") args mem = Fault.
Proof.
  intros Ht Hlen. split; [apply load_bare_percent|].
  unfold vprintf, doprintf, fuelFor.
  set (f0 := mkNativePrintArgs (t ++ cstr "%") args mem []).
  set (inner := S (List.length (t ++ cstr "%") + List.length mem)).
  assert (Hfuel : inner = (List.length t + S (S (S (List.length mem))))%nat).
  { unfold inner. rewrite length_app. cbn [List.length cstr bytes map list_ascii_of_string app].
    lia. }
  unfold bind at 1. rewrite Hfuel at 2.
  rewrite (doprintf_loop_literals toString t Ht inner _ 0 0 [] (cstr "%") f0 eq_refl)
    by (cbn [List.length]; lia).
  cbn [List.length Nat.add Z.add _fmt _args memory stdout f0 app].
  set (n := Z.of_nat (List.length t)).
  set (f1 := mkNativePrintArgs (t ++ cstr "%") args mem t).
  set (f2 := mkNativePrintArgs (t ++ cstr "%") args mem (t ++ [0])).
  assert (Hp : getChar n f1 = Some (chr "%")) by exact (proj1 (load_bare_percent t)).
  assert (Hz : getChar (u32 (n + 1)) f1 = Some 0).
  { rewrite u32_small by lia. exact (proj2 (load_bare_percent t)). }
  assert (Hdir : doprintf_directive toString inner 0 n (u32 (n + 1)) f1
                 = Ok ((0, s32 (n + 1), u32 (u32 (u32 (n + 1) + 1) + 1)), f2)).
  { rewrite Hfuel, Nat.add_succ_r.
    apply doprintf_directive_terminator; [exact Hz | reflexivity]. }
  rewrite (doprintf_loop_directive toString _ _ 0 n n f1 f2 _ _ _ Hp Hdir).
  cbn [doprintf_loop]. unfold bind, rd. cbn [getChar NativePrintArgs_FormatterArgs].
  unfold NativePrintArgs_getChar. cbn [_fmt f2].
  rewrite load_past; [reflexivity|].
  rewrite (u32_small (n + 1)) by lia.
  rewrite (u32_small (n + 1 + 1)) by lia.
  rewrite (u32_small (n + 1 + 1 + 1)) by lia.
  rewrite length_app. cbn [List.length cstr bytes map list_ascii_of_string app]. lia.
Qed.

Lemma bare_percent_reads_past_terminator_witness :
  load (cstr "50%") 3 = Some 0 /\
  vprintf (fun _ _ _ => []) (cstr "50%") [] [] = Fault.
Proof.
  apply (bare_percent_reads_past_terminator (fun _ _ _ => []) (bytes "50") [] []);
    [repeat constructor; discriminate | cbn; lia].
Defined.

(** With memory behind the terminator the call goes on: after [%] and the
    terminator it skips [A] and prints [B]. *)
Lemma bare_percent_prints_what_follows (toString : Z -> Z -> Z -> list Z) :
  vprintf toString (cstr "%" ++ cstr "AB") [] []
  = Ok (2, mkNativePrintArgs (cstr "%" ++ cstr "AB") [] [] [0; chr "B"]).
Proof. vm_compute. reflexivity. Qed.

(** ** The loops end within the regions they read *)

Section Fuel.

Variables fm mm : list Z.
Hypothesis fm_u32 : Z.of_nat (List.length fm) < 2 ^ 32 - 1.
Hypothesis mm_u64 : Z.of_nat (List.length mm) < 2 ^ 64.
Variable toString : Z -> Z -> Z -> list Z.

Lemma ends_ret {A : Type} (a : A) (Q : A -> Prop) : Q a -> ends fm mm (ret a) Q.
Proof. intros HQ s Hs. split; assumption. Qed.

Lemma ends_bind {A B : Type} (m : M _ A) (k : A -> M _ B) (Q : A -> Prop) (R : B -> Prop) :
  ends fm mm m Q -> (forall a, Q a -> ends fm mm (k a) R) -> ends fm mm (bind m k) R.
Proof.
  intros Hm Hk s Hs. specialize (Hm s Hs). unfold bind.
  destruct (m s) as [[a s']| |]; [|exact I|exact Hm].
  destruct Hm as [Hs' HQ]. apply (Hk a HQ s' Hs').
Qed.

Lemma ends_weaken {A : Type} (m : M _ A) (Q Q' : A -> Prop) :
  ends fm mm m Q -> (forall a, Q a -> Q' a) -> ends fm mm m Q'.
Proof.
  intros Hm HQ s Hs. specialize (Hm s Hs).
  destruct (m s) as [[a s']| |]; [|exact I|exact Hm].
  destruct Hm as [Hs' Ha]. split; [exact Hs' | apply HQ, Ha].
Qed.

Lemma load_Some_bound (m : list Z) (i c : Z) :
  load m i = Some c -> 0 <= i < Z.of_nat (List.length m).
Proof.
  unfold load. destruct (Z.ltb_spec i 0) as [|Hi]; [discriminate|].
  intros E. assert (Hn : nth_error m (Z.to_nat i) <> None) by congruence.
  apply nth_error_Some in Hn. lia.
Qed.

Lemma ends_getChar (i : Z) :
  ends fm mm (rd (getChar i)) (fun _ => 0 <= i < Z.of_nat (List.length fm)).
Proof.
  intros s [Hf Hm]. unfold rd. cbn. unfold NativePrintArgs_getChar. rewrite Hf.
  destruct (load fm i) eqn:E; [|exact I].
  split; [split; assumption | eapply load_Some_bound, E].
Qed.

Lemma ends_getStringChar (p : Z) :
  ends fm mm (rd (getStringChar p)) (fun _ => 0 <= p < Z.of_nat (List.length mm)).
Proof.
  intros s [Hf Hm]. unfold rd. cbn. unfold NativePrintArgs_getStringChar. rewrite Hm.
  destruct (load mm p) eqn:E; [|exact I].
  split; [split; assumption | eapply load_Some_bound, E].
Qed.

Lemma ends_putChar (c : Z) : ends fm mm (wr (putChar c)) (fun _ => True).
Proof. intros s [Hf Hm]. cbn. repeat split; assumption. Qed.

Lemma ends_getArg (t : ArgType) : ends fm mm (st (getArg t)) (fun v => 0 <= v < 2 ^ 64).
Proof.
  intros s [Hf Hm]. unfold st. cbn. unfold NativePrintArgs_getArg.
  destruct (_args s) as [|a rest]; [exact I|].
  destruct t, a; try exact I; cbn [_fmt memory];
    (split; [split; assumption |]); unfold u32, u64;
    match goal with |- 0 <= ?x mod ?m < _ => pose proof (Z.mod_pos_bound x m ltac:(lia)); lia end.
Qed.

Lemma ends_pure {A : Type} (o : option A) : ends fm mm (pure_ o) (fun _ => True).
Proof. intros s Hs. unfold pure_. destruct o; [split; [exact Hs | exact I] | exact I]. Qed.

Lemma ends_putChars (l : list Z) : ends fm mm (putChars l) (fun _ => True).
Proof.
  induction l as [|c l IH]; cbn [putChars].
  - now apply ends_ret.
  - eapply ends_bind; [apply ends_putChar | intros _ _; exact IH].
Qed.

Lemma ends_toNumber_loop (fuel : nat) : forall (fmt n : Z) (h : bool),
  outlasts fuel (Z.of_nat (List.length fm)) fmt ->
  ends fm mm (toNumber_loop fuel fmt n h)
    (fun r => fmt <= snd (fst r) < Z.of_nat (List.length fm)).
Proof.
  induction fuel as [|k IH]; intros fmt n h (H0 & H1 & H2); [lia|].
  cbn [toNumber_loop].
  eapply ends_bind; [apply ends_getChar|]. intros c Hc. cbv beta in Hc.
  destruct ((c <? chr "0") || (c >? chr "9")).
  - apply ends_ret. cbn. lia.
  - eapply ends_weaken; [apply IH|].
    + unfold outlasts, u32. rewrite Z.mod_small by lia. lia.
    + intros r. unfold u32. rewrite Z.mod_small by lia. lia.
Qed.

Lemma ends_handleFlags (fuel : nat) : forall (fmt flags : Z),
  outlasts fuel (Z.of_nat (List.length fm)) fmt ->
  ends fm mm (handleFlags fuel fmt flags)
    (fun r => fmt <= fst r < Z.of_nat (List.length fm)).
Proof.
  induction fuel as [|k IH]; intros fmt flags (H0 & H1 & H2); [lia|].
  cbn [handleFlags].
  eapply ends_bind; [apply ends_getChar|]. intros c Hc. cbv beta in Hc.
  assert (Hnext : forall fl, ends fm mm (handleFlags k (u32 (fmt + 1)) fl)
                               (fun r => fmt <= fst r < Z.of_nat (List.length fm))).
  { intros fl. eapply ends_weaken; [apply IH|].
    - unfold outlasts, u32. rewrite Z.mod_small by lia. lia.
    - intros r. unfold u32. rewrite Z.mod_small by lia. lia. }
  repeat match goal with |- ends _ _ (if ?b then _ else _) _ => destruct b; [apply Hnext|] end.
  apply ends_ret. cbn. lia.
Qed.

Lemma u32_next (i : Z) : 0 <= i < Z.of_nat (List.length fm) -> u32 (i + 1) = i + 1.
Proof. intros Hi. apply u32_small. lia. Qed.

Lemma ends_handleWidth (fuel : nat) (fmt : Z) :
  outlasts fuel (Z.of_nat (List.length fm)) fmt ->
  ends fm mm (handleWidth fuel fmt)
    (fun r => fmt <= snd r <= Z.of_nat (List.length fm)).
Proof.
  intros Hf. unfold handleWidth.
  eapply ends_bind; [apply ends_getChar|]. intros c Hc. cbv beta in Hc.
  destruct (c =? chr "*").
  - eapply ends_bind; [apply ends_getArg|]. intros v _.
    apply ends_ret. cbn. rewrite u32_next by lia. lia.
  - eapply ends_bind; [apply ends_toNumber_loop, Hf|]. intros [[h fmt'] n] Hr. cbn in Hr.
    apply ends_ret. cbn. lia.
Qed.

Lemma ends_handleLength (fmt : Z) :
  ends fm mm (handleLength fmt)
    (fun r => fmt <= snd r <= Z.of_nat (List.length fm)).
Proof.
  unfold handleLength.
  eapply ends_bind; [apply ends_getChar|]. intros c Hc. cbv beta in Hc.
  repeat match goal with
         | |- ends _ _ (if ?b then _ else _) _ => destruct b
         | |- ends _ _ (bind (rd (getChar _)) _) _ =>
             eapply ends_bind; [apply ends_getChar|]; intros c' Hc'; cbv beta in Hc';
             rewrite u32_next in * by lia
         | |- ends _ _ (ret _) _ => apply ends_ret; cbn; rewrite ?u32_next by lia; lia
         end.
Qed.

Lemma ends_doprintf_optional (fuel : nat) (fmt flags : Z) :
  outlasts fuel (Z.of_nat (List.length fm)) fmt ->
  ends fm mm (doprintf_optional fuel fmt flags)
    (fun r => fmt <= snd r <= Z.of_nat (List.length fm)).
Proof.
  intros Hf. pose proof Hf as (H0 & H1 & H2). unfold doprintf_optional.
  eapply ends_bind; [apply ends_handleFlags, Hf|]. intros [fmt1 flags1] Hr1. cbn in Hr1.
  eapply ends_bind; [apply (ends_handleWidth fuel fmt1); unfold outlasts; lia|].
  intros [width fmt2] Hr2. cbn in Hr2.
  eapply ends_bind; [apply ends_getChar|]. intros c Hc. cbv beta in Hc.
  eapply ends_bind with (Q := fun r => fmt2 <= snd r <= Z.of_nat (List.length fm)).
  { destruct (c =? chr ".").
    - eapply ends_weaken; [apply ends_handleWidth|].
      + rewrite u32_next by lia. unfold outlasts. lia.
      + intros r. cbv beta. rewrite u32_next by lia. lia.
    - apply ends_ret. cbn. lia. }
  intros [precision fmt3] Hr3. cbn in Hr3.
  eapply ends_bind; [apply ends_handleLength|]. intros [length fmt4] Hr4. cbn in Hr4.
  apply ends_ret. cbn. lia.
Qed.

Lemma ends_outInteger_pad (pad : nat) : forall padChar size,
  ends fm mm (outInteger_pad pad padChar size) (fun _ => True).
Proof.
  induction pad as [|k IH]; intros padChar size; cbn [outInteger_pad].
  - now apply ends_ret.
  - eapply ends_bind; [apply ends_putChar | intros _ _; apply IH].
Qed.

(** Steps through code that has no loop of its own. *)
Ltac ends_step :=
  first
    [ apply ends_ret; exact I
    | apply ends_pure | apply ends_putChar | apply ends_putChars
    | apply ends_outInteger_pad
    | eapply ends_bind with (Q := fun _ => True); [| intros ? ?]
    | eapply ends_weaken; [apply ends_getArg | intros ? ?; exact I]
    | eapply ends_weaken; [apply ends_getChar | intros ? ?; exact I]
    | match goal with
      | |- ends _ _ (if ?b then _ else _) _ => destruct b
      | |- ends _ _ (match ?x with _ => _ end) _ => destruct x
      end ].

Lemma ends_outInteger value sign width precision flags base_ cap :
  ends fm mm (outInteger value sign width precision flags base_ cap) (fun _ => True).
Proof. unfold outInteger. repeat ends_step. Qed.

Lemma ends_outString_loop (fuel : nat) : forall (p size : Z),
  outlasts fuel (Z.of_nat (List.length mm)) p ->
  ends fm mm (outString_loop fuel p size) (fun _ => True).
Proof.
  induction fuel as [|k IH]; intros p size (H0 & H1 & H2); [lia|].
  cbn [outString_loop].
  eapply ends_bind; [apply ends_getStringChar|]. intros c Hc. cbv beta in Hc.
  destruct (c =? 0); [now apply ends_ret|].
  eapply ends_bind; [apply ends_putChar|]. intros _ _.
  apply IH. rewrite u64_small by lia. unfold outlasts. lia.
Qed.

Lemma ends_outString (fuel : nat) (p width precision flags : Z) :
  outlasts fuel (Z.of_nat (List.length mm)) p ->
  ends fm mm (outString fuel p width precision flags) (fun _ => True).
Proof.
  intros Hf. unfold outString.
  eapply ends_bind; [apply ends_outString_loop, Hf|]. intros size _.
  repeat ends_step.
Qed.

Lemma ends_doprintf_specifier (fuel : nat) (c width precision flags : Z) (length : Length)
  (size fmt : Z) :
  (Z.of_nat (List.length mm) < Z.of_nat fuel) ->
  0 <= fmt < Z.of_nat (List.length fm) ->
  ends fm mm (doprintf_specifier toString fuel c width precision flags length size fmt)
    (fun r => fmt <= snd r <= fmt + 1).
Proof.
  intros Hfuel Hfmt. unfold doprintf_specifier, getInteger.
  repeat match goal with
         | |- ends _ _ (if ?b then _ else _) _ => destruct b
         | |- ends _ _ (let (_, _) := ?x in _) _ => destruct x
         end;
    repeat first
      [ apply ends_ret; cbn; rewrite ?u32_next by lia; lia
      | apply ends_outInteger
      | apply ends_pure | apply ends_putChar | apply ends_putChars
      | eapply ends_bind; [apply ends_getArg | intros ? ?; cbv beta in *]
      | eapply ends_bind; [apply ends_getChar | intros ? ?; cbv beta in *]
      | eapply ends_bind; [apply ends_outString; unfold outlasts; lia | intros ? ?]
      | eapply ends_bind with (Q := fun _ => True); [| intros ? ?] ].
Qed.

Lemma ends_doprintf_directive (fuel : nat) (flags size fmt : Z) :
  outlasts fuel (Z.of_nat (List.length fm)) fmt ->
  (Z.of_nat (List.length mm) < Z.of_nat fuel) ->
  ends fm mm (doprintf_directive toString fuel flags size fmt)
    (fun r => fmt + 1 <= snd r <= Z.of_nat (List.length fm) + 1).
Proof.
  intros Hf Hm. pose proof Hf as (H0 & H1 & H2). unfold doprintf_directive.
  eapply ends_bind; [apply ends_doprintf_optional, Hf|].
  intros [[[[flags1 width] precision] length] fmt1] Hr1. cbn in Hr1.
  eapply ends_bind; [apply ends_getChar|]. intros c Hc. cbv beta in Hc.
  eapply ends_bind; [apply ends_doprintf_specifier; [exact Hm | lia]|].
  intros [size1 fmt2] Hr2. cbn in Hr2.
  apply ends_ret. cbn. rewrite u32_small by lia. lia.
Qed.

Lemma ends_doprintf_loop (inner : nat) :
  Z.of_nat (List.length fm) < Z.of_nat inner ->
  Z.of_nat (List.length mm) < Z.of_nat inner ->
  forall (fuel : nat) (flags size fmt : Z),
    outlasts fuel (Z.of_nat (List.length fm)) fmt ->
    ends fm mm (doprintf_loop toString inner fuel flags size fmt) (fun _ => True).
Proof.
  intros Hi Him. induction fuel as [|k IH]; intros flags size fmt (H0 & H1 & H2); [lia|].
  cbn [doprintf_loop].
  eapply ends_bind; [apply ends_getChar|]. intros c Hc. cbv beta in Hc.
  destruct (c =? 0); [now apply ends_ret|].
  destruct (negb (c =? chr "%")).
  - eapply ends_bind; [apply ends_putChar|]. intros _ _.
    apply IH. rewrite u32_next by lia. unfold outlasts. lia.
  - eapply ends_bind.
    + apply ends_doprintf_directive; [|exact Him].
      rewrite u32_next by lia. unfold outlasts. lia.
    + intros [[flags1 size1] fmt1] Hr. cbn in Hr. rewrite u32_next in Hr by lia.
      apply IH. unfold outlasts. lia.
Qed.

End Fuel.

(** Every call of [vprintf] ends: it returns, or the C++ it stands for has
    undefined behaviour; the fuel the model gives the engine is never what
    stops it. *)
Lemma vprintf_ends (toString : Z -> Z -> Z -> list Z)
  (fmt : list Z) (args : list va_slot) (mem : list Z) :
  Z.of_nat (List.length fmt) < 2 ^ 32 - 1 ->
  Z.of_nat (List.length mem) < 2 ^ 64 ->
  vprintf toString fmt args mem <> OutOfFuel.
Proof.
  intros Hf Hm. unfold vprintf, doprintf.
  set (s0 := mkNativePrintArgs fmt args mem []).
  assert (Hloop : ends fmt mem (doprintf_loop toString (fuelFor fmt mem) (fuelFor fmt mem) 0 0 0)
                    (fun _ => True)).
  { apply ends_doprintf_loop; unfold fuelFor, outlasts; try assumption; lia. }
  specialize (Hloop s0 (conj eq_refl eq_refl)).
  unfold bind. destruct (doprintf_loop toString _ _ 0 0 0 s0) as [[size s1]| |];
    [discriminate | discriminate | contradiction].
Qed.


(** ** The buffer sink against the device sink *)

Section Truncation.

(** The caller's buffer before the call and its capacity. *)
Variable s : list Z.
Variable n : Z.
Hypothesis n_pos : 1 <= n.
Hypothesis n_u16 : n < 2 ^ 16.
Hypothesis s_length : Z.of_nat (List.length s) = n.

Lemma sim_ret {A : Type} (a : A) : sim s n (ret a) (ret a).
Proof. intros p q R. exists q. split; [reflexivity | exact R]. Qed.

Lemma sim_timeout {A : Type} : sim s n (@timeout _ A) (@timeout _ A).
Proof. intros p q R. reflexivity. Qed.

Lemma sim_bind {A B : Type} m1 m2 (k1 : A -> M _ B) k2 :
  sim s n m1 m2 -> (forall a, sim s n (k1 a) (k2 a)) -> sim s n (bind m1 k1) (bind m2 k2).
Proof.
  intros Hm Hk p q R. specialize (Hm p q R). unfold bind.
  destruct (m1 p) as [[a p']| |].
  - destruct Hm as (q' & -> & R'). apply Hk, R'.
  - now rewrite Hm.
  - now rewrite Hm.
Qed.

Lemma sim_pure {A : Type} (o : option A) : sim s n (pure_ o) (pure_ o).
Proof.
  intros p q R. unfold pure_. destruct o; [|reflexivity].
  exists q. split; [reflexivity | exact R].
Qed.

Lemma sim_getChar (i : Z) : sim s n (rd (getChar i)) (rd (getChar i)).
Proof.
  intros p q R. pose proof R as (Hf & _). unfold rd. cbn. unfold NativePrintArgs_getChar. rewrite Hf.
  destruct (load (_fmt p) i); [|reflexivity].
  exists q. split; [reflexivity | exact R].
Qed.

Lemma sim_getStringChar (i : Z) : sim s n (rd (getStringChar i)) (rd (getStringChar i)).
Proof.
  intros p q R. pose proof R as (_ & _ & Hm & _). unfold rd. cbn.
  unfold NativePrintArgs_getStringChar. rewrite Hm.
  destruct (load (memory p) i); [|reflexivity].
  exists q. split; [reflexivity | exact R].
Qed.

Lemma sim_getArg (t : ArgType) : sim s n (st (getArg t)) (st (getArg t)).
Proof.
  intros p q (Hf & Ha & Hm & Hs & Hb & Hi). unfold st. cbn.
  unfold NativeFormatArgs_getArg, NativePrintArgs_getArg. rewrite Ha, Hf, Hm.
  destruct (_args p) as [|a rest]; [reflexivity|].
  destruct t, a; try reflexivity;
    (eexists; split; [reflexivity | repeat split; assumption]).
Qed.

Lemma stored_short (out : list Z) :
  (List.length out <= Z.to_nat (n - 1))%nat ->
  stored s n out = out ++ skipn (List.length out) s.
Proof.
  intros Hl. unfold stored.
  rewrite firstn_all2 by exact Hl. now rewrite Nat.min_l by exact Hl.
Qed.

Lemma stored_full (out : list Z) (c : Z) :
  (Z.to_nat (n - 1) <= List.length out)%nat ->
  stored s n (out ++ [c]) = stored s n out.
Proof.
  intros Hl. unfold stored.
  rewrite firstn_app.
  replace (Z.to_nat (n - 1) - List.length out)%nat with 0%nat by lia.
  cbn [firstn]. rewrite app_nil_r, length_app. cbn [List.length].
  now rewrite !Nat.min_r by lia.
Qed.

Lemma store_stored (out : list Z) (c : Z) :
  (List.length out < Z.to_nat (n - 1))%nat ->
  store (stored s n out) (Z.of_nat (List.length out)) c = Some (stored s n (out ++ [c])).
Proof.
  intros Hl.
  rewrite (stored_short out) by lia.
  rewrite (stored_short (out ++ [c])) by (rewrite length_app; cbn; lia).
  unfold store.
  rewrite length_app, length_skipn.
  replace ((0 <=? Z.of_nat (List.length out))
           && (Z.of_nat (List.length out)
               <? Z.of_nat (List.length out + (List.length s - List.length out))))
    with true by (symmetry; apply andb_true_iff; split; [apply Z.leb_le | apply Z.ltb_lt]; lia).
  rewrite Nat2Z.id. f_equal.
  rewrite firstn_app, Nat.sub_diag, firstn_all. cbn [firstn]. rewrite app_nil_r.
  rewrite <- app_assoc. f_equal. cbn [app]. f_equal.
  rewrite skipn_app, skipn_all2 by lia. cbn [app].
  replace (S (List.length out) - List.length out)%nat with 1%nat by lia.
  rewrite skipn_skipn, length_app. cbn [List.length]. f_equal. lia.
Qed.

Lemma sim_putChar (c : Z) : sim s n (wr (putChar c)) (wr (putChar c)).
Proof.
  intros p q (Hf & Ha & Hm & Hs & Hb & Hi). unfold wr. cbn.
  unfold NativeFormatArgs_putChar. rewrite Hs, Hi, Hb.
  destruct (Z.ltb_spec (Z.of_nat (Nat.min (List.length (stdout p)) (Z.to_nat (n - 1)))) (n - 1))
    as [Hlt | Hge].
  - assert (Hl : (List.length (stdout p) < Z.to_nat (n - 1))%nat) by lia.
    rewrite Nat.min_l by lia. rewrite store_stored by exact Hl.
    eexists; split; [reflexivity|].
    repeat split; cbn; try assumption.
    rewrite length_app. cbn [List.length]. unfold u16.
    rewrite Z.mod_small by lia. lia.
  - assert (Hl : (Z.to_nat (n - 1) <= List.length (stdout p))%nat) by lia.
    exists q. split; [reflexivity|].
    repeat split; cbn; try assumption.
    + rewrite stored_full by exact Hl. exact Hb.
    + rewrite length_app. cbn [List.length]. rewrite Hi. lia.
Qed.

Ltac sim_step :=
  first
    [ apply sim_ret | apply sim_timeout | apply sim_pure
    | apply sim_getChar | apply sim_getStringChar | apply sim_getArg | apply sim_putChar
    | assumption
    | apply sim_bind; [| intros ?]
    | match goal with
      | |- sim _ _ (if ?b then _ else _) _ => destruct b
      | |- sim _ _ (match ?x with _ => _ end) _ => destruct x
      | |- sim _ _ (let (_, _) := ?x in _) _ => destruct x
      end ].

Variable toString : Z -> Z -> Z -> list Z.

Lemma sim_putChars (l : list Z) : sim s n (putChars l) (putChars l).
Proof. induction l; cbn [putChars]; repeat sim_step. Qed.

Lemma sim_toNumber_loop (fuel : nat) : forall fmt k h,
  sim s n (toNumber_loop fuel fmt k h) (toNumber_loop fuel fmt k h).
Proof. induction fuel; intros; cbn [toNumber_loop]; repeat sim_step. apply IHfuel. Qed.

Lemma sim_handleFlags (fuel : nat) : forall fmt flags,
  sim s n (handleFlags fuel fmt flags) (handleFlags fuel fmt flags).
Proof. induction fuel; intros; cbn [handleFlags]; repeat sim_step; apply IHfuel. Qed.

Lemma sim_handleWidth (fuel : nat) (fmt : Z) :
  sim s n (handleWidth fuel fmt) (handleWidth fuel fmt).
Proof. unfold handleWidth, toNumber. repeat sim_step. apply sim_toNumber_loop. Qed.

Lemma sim_handleLength (fmt : Z) : sim s n (handleLength fmt) (handleLength fmt).
Proof. unfold handleLength. repeat sim_step. Qed.

Lemma sim_outInteger_pad (pad : nat) : forall padChar size,
  sim s n (outInteger_pad pad padChar size) (outInteger_pad pad padChar size).
Proof. induction pad; intros; cbn [outInteger_pad]; repeat sim_step. apply IHpad. Qed.

Lemma sim_outInteger value sign width precision flags base_ cap :
  sim s n (outInteger value sign width precision flags base_ cap)
      (outInteger value sign width precision flags base_ cap).
Proof.
  unfold outInteger.
  repeat first [apply sim_outInteger_pad | apply sim_putChars | sim_step].
Qed.

Lemma sim_outString_loop (fuel : nat) : forall p size,
  sim s n (outString_loop fuel p size) (outString_loop fuel p size).
Proof. induction fuel; intros; cbn [outString_loop]; repeat sim_step. apply IHfuel. Qed.

Lemma sim_outString fuel p width precision flags :
  sim s n (outString fuel p width precision flags) (outString fuel p width precision flags).
Proof.
  unfold outString.
  repeat first [apply sim_outString_loop | apply sim_putChars | sim_step].
Qed.

Lemma sim_doprintf_optional fuel fmt flags :
  sim s n (doprintf_optional fuel fmt flags) (doprintf_optional fuel fmt flags).
Proof.
  unfold doprintf_optional.
  repeat first [apply sim_handleFlags | apply sim_handleWidth | apply sim_handleLength | sim_step].
Qed.

Lemma sim_doprintf_specifier fuel c width precision flags length size fmt :
  sim s n (doprintf_specifier toString fuel c width precision flags length size fmt)
      (doprintf_specifier toString fuel c width precision flags length size fmt).
Proof.
  unfold doprintf_specifier, getInteger.
  repeat first [apply sim_outInteger | apply sim_outString | apply sim_putChars | sim_step].
Qed.

Lemma sim_doprintf_directive fuel flags size fmt :
  sim s n (doprintf_directive toString fuel flags size fmt)
      (doprintf_directive toString fuel flags size fmt).
Proof.
  unfold doprintf_directive.
  repeat first [apply sim_doprintf_optional | apply sim_doprintf_specifier | sim_step].
Qed.

Lemma sim_doprintf_loop inner (fuel : nat) : forall flags size fmt,
  sim s n (doprintf_loop toString inner fuel flags size fmt)
      (doprintf_loop toString inner fuel flags size fmt).
Proof.
  induction fuel; intros; cbn [doprintf_loop];
    repeat first [apply sim_doprintf_directive | apply IHfuel | sim_step].
Qed.

(** The buffer after [vformat] is the output of [vprintf] and a terminator,
    cut to the room the buffer has. *)
Lemma vformat_stored (fmt : list Z) (args : list va_slot) (mem : list Z)
  (m : Z) (p : NativePrintArgs) :
  vprintf toString fmt args mem = Ok (m, p) ->
  exists q, vformat toString s n fmt args mem = Ok (m, q)
            /\ _buf q = stored s n (stdout p ++ [0]).
Proof.
  unfold vprintf, vformat, doprintf. intros Hp.
  set (p0 := mkNativePrintArgs fmt args mem []) in *.
  set (q0 := mkNativeFormatArgs p0 s (u16 n) 0).
  assert (R0 : truncates s n p0 q0).
  { repeat split; cbn; unfold u16; [apply Z.mod_small; lia |].
    unfold stored. cbn. now rewrite firstn_nil. }
  pose proof (sim_doprintf_loop (fuelFor fmt mem) (fuelFor fmt mem) 0 0 0 p0 q0 R0) as Hl.
  unfold bind in Hp |- *.
  destruct (doprintf_loop toString _ _ 0 0 0 p0) as [[size p1]| |]; try discriminate.
  destruct Hl as (q1 & -> & R1).
  cbn in Hp. injection Hp as <- <-.
  pose proof (sim_putChar 0 p1 q1 R1) as He. cbn in He.
  destruct He as (q2 & He & R2).
  unfold wr in He |- *. cbn [end_ NativeFormatArgs_FormatterArgs].
  destruct (NativeFormatArgs_putChar 0 q1) as [q2'|]; [|discriminate].
  injection He as ->.
  exists q2. split; [reflexivity|]. apply R2.
Qed.

(** [vformat] ends as [vprintf] does. *)
Lemma vformat_ends (fmt : list Z) (args : list va_slot) (mem : list Z) :
  Z.of_nat (List.length fmt) < 2 ^ 32 - 1 ->
  Z.of_nat (List.length mem) < 2 ^ 64 ->
  vformat toString s n fmt args mem <> OutOfFuel.
Proof.
  intros Hf Hm. pose proof (vprintf_ends toString fmt args mem Hf Hm) as Hp.
  unfold vprintf, vformat, doprintf in *.
  set (p0 := mkNativePrintArgs fmt args mem []) in *.
  set (q0 := mkNativeFormatArgs p0 s (u16 n) 0).
  assert (R0 : truncates s n p0 q0).
  { repeat split; cbn; unfold u16; [apply Z.mod_small; lia |].
    unfold stored. cbn. now rewrite firstn_nil. }
  pose proof (sim_doprintf_loop (fuelFor fmt mem) (fuelFor fmt mem) 0 0 0 p0 q0 R0) as Hl.
  unfold bind in Hp |- *.
  destruct (doprintf_loop toString _ _ 0 0 0 p0) as [[size p1]| |].
  - destruct Hl as (q1 & -> & _). unfold wr.
    destruct (end_ q1); discriminate.
  - rewrite Hl. discriminate.
  - contradiction.
Qed.

(** C1, as the code has it.  When the output of the call takes up the
    room [n - 1] of the buffer or more, the buffer ends up with the first
    [n - 1] characters of the output followed by the byte the caller's
    buffer held at [n - 1] before the call: [end] goes through the same
    guarded [putChar], which stores nothing at index [n - 1], so no
    terminator is written.  The count returned is the one [vprintf]
    returns for the same format and arguments. *)
Theorem vformat_truncated_unterminated (fmt : list Z) (args : list va_slot) (mem : list Z)
  (m : Z) (p : NativePrintArgs) :
  vprintf toString fmt args mem = Ok (m, p) ->
  n - 1 <= Z.of_nat (List.length (stdout p)) ->
  exists q, vformat toString s n fmt args mem = Ok (m, q)
            /\ _buf q = firstn (Z.to_nat (n - 1)) (stdout p) ++ skipn (Z.to_nat (n - 1)) s.
Proof.
  intros Hp Hlen.
  destruct (vformat_stored fmt args mem m p Hp) as (q & Hq & Hb).
  exists q. split; [exact Hq|].
  rewrite Hb, stored_full by lia.
  unfold stored. now rewrite Nat.min_r by lia.
Qed.

End Truncation.

Lemma vformat_truncated_unterminated_witness :
  exists q, vformat (fun _ _ _ => []) (bytes "XXXXX") 5 (cstr "0123456789") [] [] = Ok (10, q)
            /\ _buf q = bytes "0123X".
Proof.
  apply (vformat_truncated_unterminated (bytes "XXXXX") 5 ltac:(lia) ltac:(lia) eq_refl
           (fun _ _ _ => []) (cstr "0123456789") [] [] 10
           (mkNativePrintArgs (cstr "0123456789") [] [] (bytes "0123456789")));
    [reflexivity | vm_compute; discriminate].
Defined.

(** ** The numeric renderer in the three bases *)

Lemma parseDigits_from_app (base : Z) (ds : list Z) (c : Z) : forall acc,
  parseDigits_from base acc (ds ++ [c])
  = match parseDigits_from base acc ds with
    | Some a => parseDigits_from base a [c]
    | None => None
    end.
Proof.
  induction ds as [|d ds IH]; intros acc; [reflexivity|].
  cbn [app parseDigits_from]. destruct (hexDigit d) as [v|]; [|reflexivity].
  destruct (v <? base); [apply IH | reflexivity].
Qed.

Lemma hexDigit_zero_char : hexDigit (chr "0") = Some 0.
Proof. reflexivity. Qed.

Lemma intToString_loop_digits (base hexBase : Z) :
  2 <= base <= 16 ->
  hexBase = chr "a" \/ hexBase = chr "A" ->
  forall (slots : nat) (value : Z) (buf : list Z),
    0 <= value < base ^ Z.of_nat slots ->
    value < 2 ^ 64 ->
    (slots <= List.length buf)%nat ->
    exists digits,
      (List.length digits <= slots)%nat /\
      intToString_loop slots value buf base hexBase
      = Some (firstn (slots - List.length digits) buf ++ digits ++ skipn slots buf,
              Z.of_nat (slots - List.length digits)) /\
      Forall (fun c => c <> 0) digits /\
      (value <> 0 ->
       hd 0 digits <> chr "0" /\ base ^ (Z.of_nat (List.length digits) - 1) <= value) /\
      (value = 0 -> digits = []) /\
      forall acc, parseDigits_from base acc digits
                  = Some (acc * base ^ Z.of_nat (List.length digits) + value).
Proof.
  intros Hbase Hb. induction slots as [|p IH]; intros value buf Hv H64 Hlen.
  - assert (value = 0) by (cbn in Hv; lia). subst value.
    exists []. cbn [intToString_loop List.length app firstn skipn Nat.sub].
    change (0 =? 0) with true. cbv iota.
    split; [lia|]. split; [reflexivity|]. split; [constructor|].
    split; [intros E; now elim E|]. split; [reflexivity|]. intros acc. cbn. f_equal. lia.
  - destruct (Z.eq_dec value 0) as [-> | Hnz].
    + exists []. cbn [intToString_loop List.length app]. rewrite Nat.sub_0_r.
      change (0 =? 0) with true. cbv iota. rewrite firstn_skipn.
      split; [lia|]. split; [reflexivity|]. split; [constructor|].
      split; [intros E; now elim E|]. split; [reflexivity|]. intros acc. cbn. f_equal. lia.
    + cbn [intToString_loop].
      apply Z.eqb_neq in Hnz. rewrite Hnz. apply Z.eqb_neq in Hnz.
      replace (base =? 0) with false by (symmetry; apply Z.eqb_neq; lia). cbv iota.
      set (c := u8 (if u8 (value mod base) >? 9 then u8 (value mod base) - 10 + hexBase
                    else u8 (value mod base) + chr "0")).
      assert (Hd : 0 <= value mod base < base) by (apply Z.mod_pos_bound; lia).
      destruct (hexDigit_rendered hexBase (value mod base) Hb ltac:(lia)) as [Hc0 Hcd].
      fold c in Hc0, Hcd.
      rewrite store_nat by lia.
      assert (Hq : 0 <= value / base < base ^ Z.of_nat p).
      { split; [apply Z.div_pos; lia|].
        apply Z.div_lt_upper_bound; [lia|].
        rewrite Nat2Z.inj_succ, Z.pow_succ_r in Hv by lia. lia. }
      assert (Hq64 : value / base < 2 ^ 64).
      { apply Z.div_lt_upper_bound; [lia|]. nia. }
      replace (u64 (value / base)) with (value / base)
        by (unfold u64; symmetry; apply Z.mod_small; lia).
      set (buf' := firstn p buf ++ c :: skipn (S p) buf).
      assert (Hlen' : (p <= List.length buf')%nat).
      { unfold buf'. rewrite length_app, length_firstn. lia. }
      destruct (IH (value / base) buf' Hq Hq64 Hlen')
        as (ds & Hk & Hrun & Hnz' & Hlead & Hzero & Hparse).
      exists (ds ++ [c]). rewrite length_app. cbn [List.length].
      pose proof (Z.div_mod value base ltac:(lia)) as Hdm.
      split; [lia|]. split.
      * rewrite Hrun. f_equal. f_equal.
        -- unfold buf'. rewrite firstn_app, length_firstn.
           replace (p - List.length ds - Nat.min p (List.length buf))%nat with 0%nat by lia.
           cbn [firstn]. rewrite app_nil_r, firstn_firstn.
           replace (S p - (List.length ds + 1))%nat with (p - List.length ds)%nat by lia.
           f_equal.
           ++ f_equal. lia.
           ++ rewrite <- app_assoc. f_equal. cbn [app].
              rewrite skipn_app, length_firstn.
              rewrite skipn_all2 by (rewrite length_firstn; lia).
              replace (p - Nat.min p (List.length buf))%nat with 0%nat by lia.
              reflexivity.
        -- lia.
      * split; [apply Forall_app; split; [exact Hnz' | constructor; [exact Hc0 | constructor]]|].
        split; [|split; [intros E; contradiction|]].
        -- intros _.
           replace (Z.of_nat (List.length ds + 1) - 1) with (Z.of_nat (List.length ds)) by lia.
           destruct (Z.eq_dec (value / base) 0) as [Hq0 | Hqn].
           ++ rewrite (Hzero Hq0). cbn [app hd List.length]. split; [|cbn; lia].
              intros E. rewrite E, hexDigit_zero_char in Hcd. injection Hcd as Hcd. lia.
           ++ destruct (Hlead Hqn) as [Hh Hpow]. split.
              ** destruct ds as [|d0 ds]; [|exact Hh].
                 exfalso. specialize (Hparse 0). cbn in Hparse.
                 injection Hparse as Hparse. lia.
              ** replace (Z.of_nat (List.length ds))
                   with (Z.succ (Z.of_nat (List.length ds) - 1)) by lia.
                 rewrite Z.pow_succ_r.
                 --- nia.
                 --- destruct ds as [|d0 ds]; [|cbn [List.length]; lia].
                     exfalso. specialize (Hparse 0). cbn in Hparse.
                     injection Hparse as Hparse. lia.
        -- intros acc. rewrite parseDigits_from_app, Hparse. cbn [parseDigits_from].
           rewrite Hcd.
           replace (value mod base <? base) with true by (symmetry; apply Z.ltb_lt; lia).
           f_equal.
           replace (Z.of_nat (List.length ds + 1)) with (Z.succ (Z.of_nat (List.length ds)))
             by lia.
           rewrite Z.pow_succ_r by lia. nia.
Qed.

Lemma digits_at_most_22 (base value k : Z) :
  8 <= base -> base ^ (k - 1) <= value -> value < 2 ^ 64 -> k <= 22.
Proof.
  intros Hb Hlo Hhi. destruct (Z_le_gt_dec k 22) as [|Hk]; [assumption|]. exfalso.
  assert (H1 : 8 ^ 22 <= 8 ^ (k - 1)) by (apply Z.pow_le_mono_r; lia).
  assert (H2 : 8 ^ (k - 1) <= base ^ (k - 1)) by (apply Z.pow_le_mono_l; lia).
  assert (H3 : 2 ^ 64 < 8 ^ 22) by reflexivity. lia.
Qed.

(** What [intToString] leaves in a 24-byte buffer, whatever it held. *)
Lemma intToString_digits (value base : Z) (buf : list Z) (cap : Capital) :
  0 <= value < 2 ^ 64 ->
  base = 8 \/ base = 10 \/ base = 16 ->
  List.length buf = 24%nat ->
  exists buf' digits,
    intToString value buf MaxIntegerBufferSize base cap
    = Some (buf', if value =? 0 then 0 else 23 - Z.of_nat (List.length digits)) /\
    strz (skipn (Z.to_nat (if value =? 0 then 0 else 23 - Z.of_nat (List.length digits))) buf')
    = Some digits /\
    (1 <= List.length digits <= 22)%nat /\
    parseDigits base digits = Some value /\
    (value = 0 -> digits = [chr "0"]) /\
    (value <> 0 -> hd 0 digits <> chr "0").
Proof.
  intros Hv Hbase Hlen. unfold intToString, MaxIntegerBufferSize.
  destruct (Z.eq_dec value 0) as [-> | Hnz].
  - destruct buf as [|a [|b r]]; try discriminate Hlen.
    exists (chr "0" :: 0 :: r), [chr "0"].
    change (0 =? 0) with true. cbv iota.
    change (store (a :: b :: r) 0) with (store (a :: b :: r) (Z.of_nat 0)).
    rewrite store_nat by (cbn; lia). cbn [firstn skipn app].
    change (store (chr "0" :: b :: r) 1) with (store (chr "0" :: b :: r) (Z.of_nat 1)).
    rewrite store_nat by (cbn; lia). cbn [firstn skipn app].
    split; [reflexivity|]. split; [reflexivity|]. split; [cbn; lia|].
    split; [destruct Hbase as [-> | [-> | ->]]; reflexivity|].
    split; [reflexivity | intros E; now elim E].
  - apply Z.eqb_neq in Hnz. rewrite Hnz. apply Z.eqb_neq in Hnz.
    change (24 - 1) with (Z.of_nat 23). rewrite store_nat by lia. rewrite Nat2Z.id.
    set (hexBase := match cap with CapitalYes => chr "A" | CapitalNo => chr "a" end).
    assert (Hb : hexBase = chr "a" \/ hexBase = chr "A") by (destruct cap; auto).
    set (b := firstn 23 buf ++ 0 :: skipn 24 buf).
    assert (Hb23 : skipn 23 b = [0]).
    { unfold b. rewrite skipn_app, length_firstn, Hlen.
      rewrite skipn_all2 by (rewrite length_firstn; lia).
      rewrite skipn_all2 with (n := 24%nat) by lia. reflexivity. }
    assert (Hblen : List.length b = 24%nat).
    { unfold b. rewrite length_app, length_firstn. cbn [List.length].
      rewrite length_skipn. lia. }
    assert (H23 : 2 ^ 64 < base ^ Z.of_nat 23).
    { assert (H8 : 2 ^ 64 < 8 ^ 23) by reflexivity.
      assert (8 ^ 23 <= base ^ 23) by (apply Z.pow_le_mono_l; lia).
      change (Z.of_nat 23) with 23. lia. }
    destruct (intToString_loop_digits base hexBase ltac:(lia) Hb 23 value b
                ltac:(lia) ltac:(lia) ltac:(lia))
      as (ds & Hk & Hrun & Hnz' & Hlead & _ & Hparse).
    destruct (Hlead Hnz) as [Hhd Hpow].
    assert (Hk22 : Z.of_nat (List.length ds) <= 22)
      by (apply (digits_at_most_22 base value); lia).
    assert (Hne : ds <> []).
    { intros ->. specialize (Hparse 0). cbn in Hparse. injection Hparse as Hparse. lia. }
    exists (firstn (23 - List.length ds) b ++ ds ++ skipn 23 b), ds.
    replace (23 - Z.of_nat (List.length ds)) with (Z.of_nat (23 - List.length ds)) by lia.
    split; [exact Hrun|]. split.
    + rewrite Nat2Z.id, skipn_app, length_firstn, Hb23.
      rewrite skipn_all2 by (rewrite length_firstn; lia).
      replace (23 - List.length ds - Nat.min (23 - List.length ds) (List.length b))%nat
        with 0%nat by lia.
      cbn [skipn app]. apply strz_app, Hnz'.
    + split; [destruct ds; [congruence | cbn [List.length] in *; lia]|].
      split; [|split; [intros E; contradiction | intros _; exact Hhd]].
      unfold parseDigits. destruct ds; [congruence|]. rewrite Hparse. reflexivity.
Qed.

(** [intToString] in base 8, 10 or 16, for every 64-bit value and whatever
    the 24-byte buffer held: it stays inside the buffer, and the text from
    the returned pointer is a terminated run of 1 to 22 digits that reads
    back in that base as the value, with no leading zero; for 0 it is the
    one digit [0]. *)
Theorem intToString_round_trip (value base : Z) (buf : list Z) (cap : Capital) :
  0 <= value < 2 ^ 64 ->
  base = 8 \/ base = 10 \/ base = 16 ->
  List.length buf = 24%nat ->
  exists buf' p digits,
    intToString value buf MaxIntegerBufferSize base cap = Some (buf', p) /\
    0 <= p < 23 /\
    strz (skipn (Z.to_nat p) buf') = Some digits /\
    (1 <= List.length digits <= 22)%nat /\
    parseDigits base digits = Some value /\
    (value = 0 -> digits = [chr "0"]) /\
    (value <> 0 -> hd 0 digits <> chr "0").
Proof.
  intros Hv Hbase Hlen.
  destruct (intToString_digits value base buf cap Hv Hbase Hlen)
    as (buf' & digits & Hrun & Hstr & Hk & Hparse & Hz & Hnz).
  exists buf', (if value =? 0 then 0 else 23 - Z.of_nat (List.length digits)), digits.
  repeat split; try assumption; try lia; destruct (value =? 0); lia.
Qed.

Lemma intToString_round_trip_witness :
  exists buf' p digits,
    intToString 2024 (repeat 170 24) MaxIntegerBufferSize 10 CapitalNo = Some (buf', p) /\
    0 <= p < 23 /\
    strz (skipn (Z.to_nat p) buf') = Some digits /\
    (1 <= List.length digits <= 22)%nat /\
    parseDigits 10 digits = Some 2024 /\
    (2024 = 0 -> digits = [chr "0"]) /\
    (2024 <> 0 -> hd 0 digits <> chr "0").
Proof.
  apply (intToString_round_trip 2024 10 (repeat 170 24) CapitalNo);
    [lia | right; left; reflexivity | reflexivity].
Defined.

(** ** The integer path on the device sink *)

Lemma outInteger_pad_native (pad : nat) (padChar : Z) : forall (size : Z) (f : NativePrintArgs),
  0 <= size ->
  size + Z.of_nat pad < 2 ^ 32 ->
  outInteger_pad pad padChar size f
  = Ok (size + Z.of_nat pad,
        mkNativePrintArgs (_fmt f) (_args f) (memory f) (stdout f ++ repeat padChar pad)).
Proof.
  induction pad as [|k IH]; intros size f H0 Hlt; cbn [outInteger_pad repeat].
  - rewrite Z.add_0_r, app_nil_r. now destruct f.
  - unfold bind at 1, wr. cbn [putChar NativePrintArgs_FormatterArgs].
    unfold NativePrintArgs_putChar. rewrite u32_small by lia.
    rewrite IH by lia. cbn [_fmt _args memory stdout]. rewrite <- app_assoc. cbn [app].
    do 2 f_equal. lia.
Qed.

Lemma magnitude_range (sign : Signed) (value : Z) :
  0 <= value < 2 ^ 64 -> 0 <= magnitude sign value < 2 ^ 64.
Proof.
  intros Hv. unfold magnitude. destruct (negative sign value); [|exact Hv].
  unfold u64. apply Z.mod_pos_bound. lia.
Qed.

Lemma outInteger_native (value : Z) (sign : Signed) (width precision flags base : Z)
  (cap : Capital) (f : NativePrintArgs) :
  0 <= value < 2 ^ 64 ->
  base = 8 \/ base = 10 \/ base = 16 ->
  - 2 ^ 30 <= width < 2 ^ 30 ->
  exists digits,
    (1 <= List.length digits <= 22)%nat /\
    parseDigits base digits = Some (magnitude sign value) /\
    (magnitude sign value = 0 -> digits = [chr "0"]) /\
    (magnitude sign value <> 0 -> hd 0 digits <> chr "0") /\
    let lead := signText sign value ++ altPrefix flags base cap in
    let pad := Z.to_nat (width - Z.of_nat (List.length lead) - Z.of_nat (List.length digits)) in
    outInteger value sign width precision flags base cap f
    = Ok (Z.of_nat (List.length lead)
          + (if magnitude sign value =? 0 then 0 else 23 - Z.of_nat (List.length digits))
          + Z.of_nat pad,
          mkNativePrintArgs (_fmt f) (_args f) (memory f)
            (stdout f ++ lead
             ++ repeat (if isFlag flags zeroPad then chr "0" else chr " ") pad
             ++ digits)).
Proof.
  intros Hv Hbase Hw.
  pose proof (magnitude_range sign value Hv) as Hm.
  destruct (intToString_digits (magnitude sign value) base
              (repeat 0 (Z.to_nat MaxIntegerBufferSize)) cap Hm Hbase eq_refl)
    as (buf' & digits & Hrun & Hstr & Hk & Hparse & Hz & Hnz).
  exists digits. split; [exact Hk|]. split; [exact Hparse|].
  split; [exact Hz|]. split; [exact Hnz|].
  cbv zeta. unfold outInteger, signText, altPrefix, magnitude in *.
  set (padChar := if isFlag flags zeroPad then chr "0" else chr " ").
  destruct sign; cbn [negative] in *;
    [destruct (s64 value <? 0) | ];
    destruct (isFlag flags alt && negb (base =? 10));
    try destruct (base =? 16);
    cbv [bind ret wr]; cbn [putChar NativePrintArgs_FormatterArgs];
    unfold NativePrintArgs_putChar; cbv beta iota;
    rewrite ?(u64_small (u64 (- s64 value))) by assumption;
    rewrite ?(u64_small value) by assumption;
    unfold pure_; rewrite Hrun, Hstr; cbv beta iota.
  all: cbn [_fmt _args memory stdout List.length app].
  all: destruct (_ =? 0);
    repeat match goal with
           | |- context [s32 ?x] => rewrite (s32_small x) by lia
           | |- context [u32 ?x] => rewrite (u32_small x) by lia
           end;
    rewrite outInteger_pad_native by lia;
    rewrite putChars_native;
    cbn [_fmt _args memory stdout];
    rewrite ?s32_small by lia;
    rewrite <- ?app_assoc; cbn [app];
    repeat (f_equal; try lia).
Qed.

(** What [outInteger] writes on the device sink: the sign [-] of a negative
    signed value, then the alternate-form prefix, then the padding up to
    the width (zeros with the zero-pad flag, spaces without), then the
    digits of the magnitude.  The sign and the prefix come before the
    padding, and the left-justify, plus and space flags change nothing. *)
Theorem outInteger_layout (value : Z) (sign : Signed) (width precision flags base : Z)
  (cap : Capital) (f : NativePrintArgs) :
  0 <= value < 2 ^ 64 ->
  base = 8 \/ base = 10 \/ base = 16 ->
  - 2 ^ 30 <= width < 2 ^ 30 ->
  exists digits n,
    parseDigits base digits = Some (magnitude sign value) /\
    (digits = [chr "0"] \/ hd 0 digits <> chr "0") /\
    outInteger value sign width precision flags base cap f
    = Ok (n, mkNativePrintArgs (_fmt f) (_args f) (memory f)
               (stdout f ++ signText sign value ++ altPrefix flags base cap
                ++ repeat (if isFlag flags zeroPad then chr "0" else chr " ")
                     (Z.to_nat (width - Z.of_nat (List.length (signText sign value))
                                - Z.of_nat (List.length (altPrefix flags base cap))
                                - Z.of_nat (List.length digits)))
                ++ digits)).
Proof.
  intros Hv Hbase Hw.
  destruct (outInteger_native value sign width precision flags base cap f Hv Hbase Hw)
    as (digits & _ & Hparse & Hz & Hnz & Hrun).
  cbv zeta in Hrun. exists digits. eexists. split; [exact Hparse|]. split.
  - destruct (Z.eq_dec (magnitude sign value) 0) as [E | E]; [left; auto | right; auto].
  - rewrite Hrun, length_app, Nat2Z.inj_add, <- app_assoc.
    replace (width - (Z.of_nat (List.length (signText sign value))
                      + Z.of_nat (List.length (altPrefix flags base cap)))
             - Z.of_nat (List.length digits))
      with (width - Z.of_nat (List.length (signText sign value))
            - Z.of_nat (List.length (altPrefix flags base cap))
            - Z.of_nat (List.length digits)) by lia.
    reflexivity.
Qed.

Lemma outInteger_layout_witness :
  exists digits n,
    parseDigits 10 digits = Some (magnitude SignedYes (u64 (-3))) /\
    (digits = [chr "0"] \/ hd 0 digits <> chr "0") /\
    outInteger (u64 (-3)) SignedYes 5 (-1) (Flag_value leftJustify) 10 CapitalNo
      (mkNativePrintArgs [] [] [] [])
    = Ok (n, mkNativePrintArgs [] [] []
               ([] ++ signText SignedYes (u64 (-3)) ++ altPrefix (Flag_value leftJustify) 10 CapitalNo
                ++ repeat (if isFlag (Flag_value leftJustify) zeroPad then chr "0" else chr " ")
                     (Z.to_nat (5 - Z.of_nat (List.length (signText SignedYes (u64 (-3))))
                                - Z.of_nat (List.length (altPrefix (Flag_value leftJustify) 10 CapitalNo))
                                - Z.of_nat (List.length digits)))
                ++ digits)).
Proof.
  apply (outInteger_layout (u64 (-3)) SignedYes 5 (-1) (Flag_value leftJustify) 10 CapitalNo
           (mkNativePrintArgs [] [] [] []));
    [vm_compute; split; [discriminate | reflexivity] | right; left; reflexivity | lia].
Defined.

(** The text at that input: the sign comes before the padding, and the
    left-justify flag changes nothing. *)
Lemma outInteger_minus_three :
  outInteger (u64 (-3)) SignedYes 5 (-1) (Flag_value leftJustify) 10 CapitalNo
    (mkNativePrintArgs [] [] [] [])
  = Ok (26, mkNativePrintArgs [] [] [] (bytes "-   3")).
Proof. vm_compute. reflexivity. Qed.

(** What [outInteger] returns: not the count of the characters it wrote.
    In place of the number of digits it adds [p - buf], the offset of the
    digits in its buffer: 0 for the value 0, and 23 less the number of
    digits otherwise. *)
Theorem outInteger_count (value : Z) (sign : Signed) (width precision flags base : Z)
  (cap : Capital) (f : NativePrintArgs) :
  0 <= value < 2 ^ 64 ->
  base = 8 \/ base = 10 \/ base = 16 ->
  - 2 ^ 30 <= width < 2 ^ 30 ->
  exists digits n f',
    outInteger value sign width precision flags base cap f = Ok (n, f') /\
    parseDigits base digits = Some (magnitude sign value) /\
    (digits = [chr "0"] \/ hd 0 digits <> chr "0") /\
    n = Z.of_nat (List.length (stdout f')) - Z.of_nat (List.length (stdout f))
        - Z.of_nat (List.length digits)
        + (if magnitude sign value =? 0 then 0 else 23 - Z.of_nat (List.length digits)).
Proof.
  intros Hv Hbase Hw.
  destruct (outInteger_native value sign width precision flags base cap f Hv Hbase Hw)
    as (digits & _ & Hparse & Hz & Hnz & Hrun).
  cbv zeta in Hrun. exists digits. eexists. eexists. split; [exact Hrun|].
  split; [exact Hparse|]. split.
  - destruct (Z.eq_dec (magnitude sign value) 0) as [E | E]; [left; auto | right; auto].
  - cbn [stdout]. rewrite !length_app, repeat_length. lia.
Qed.

Lemma outInteger_count_witness :
  exists digits n f',
    outInteger 42 SignedNo (-1) (-1) 0 10 CapitalNo (mkNativePrintArgs [] [] [] [])
    = Ok (n, f') /\
    parseDigits 10 digits = Some (magnitude SignedNo 42) /\
    (digits = [chr "0"] \/ hd 0 digits <> chr "0") /\
    n = Z.of_nat (List.length (stdout f')) - Z.of_nat (List.length (@nil Z))
        - Z.of_nat (List.length digits)
        + (if magnitude SignedNo 42 =? 0 then 0 else 23 - Z.of_nat (List.length digits)).
Proof.
  apply (outInteger_count 42 SignedNo (-1) (-1) 0 10 CapitalNo (mkNativePrintArgs [] [] [] []));
    [lia | right; left; reflexivity | lia].
Defined.

(** At that input two characters are written and 21 is returned. *)
Lemma outInteger_forty_two :
  outInteger 42 SignedNo (-1) (-1) 0 10 CapitalNo (mkNativePrintArgs [] [] [] [])
  = Ok (21, mkNativePrintArgs [] [] [] (bytes "42")).
Proof. vm_compute. reflexivity. Qed.

(** ** [%d] as a whole call *)

Lemma s32_u32 (v : Z) : s32 (u32 v) = s32 v.
Proof. unfold s32, u32. now rewrite Zplus_mod_idemp_l. Qed.

Lemma s64_u64 (v : Z) : - 2 ^ 63 <= v < 2 ^ 63 -> s64 (u64 v) = v.
Proof.
  intros Hv. unfold s64, u64. rewrite Zplus_mod_idemp_l.
  rewrite Z.mod_small by lia. lia.
Qed.

Lemma negative_signed (v : Z) :
  - 2 ^ 63 <= v < 2 ^ 63 -> negative SignedYes (u64 v) = (v <? 0).
Proof. intros Hv. unfold negative. now rewrite s64_u64. Qed.

Lemma magnitude_signed (v : Z) :
  - 2 ^ 63 < v < 2 ^ 63 -> magnitude SignedYes (u64 v) = Z.abs v.
Proof.
  intros Hv. unfold magnitude. rewrite negative_signed by lia.
  destruct (Z.ltb_spec v 0).
  - rewrite s64_u64 by lia. rewrite u64_small by lia. lia.
  - rewrite u64_small by lia. lia.
Qed.

Lemma specifier_d {F : Type} `{FormatterArgs F} (toString : Z -> Z -> Z -> list Z)
  (fuel : nat) (width precision flags size fmt : Z) (length : Length) :
  doprintf_specifier toString fuel (chr "d") width precision flags length size fmt
  = (v <- getInteger length ;;
     n <- outInteger (u64 v) SignedYes width precision flags 10 CapitalNo ;;
     ret (s32 (size + n), fmt)).
Proof. reflexivity. Qed.

(** [%d] alone, of any 32-bit signed value: the call writes [-] for a
    negative value and then the decimal digits of its absolute value, with
    no leading zero, and fetches the one argument. *)
Theorem decimal_call (toString : Z -> Z -> Z -> list Z) (v : Z) (mem : list Z) :
  - 2 ^ 31 <= v < 2 ^ 31 ->
  exists m digits,
    vprintf toString (cstr "%d") [VaInt v] mem
    = Ok (m, mkNativePrintArgs (cstr "%d") [] mem
               ((if v <? 0 then [chr "-"] else []) ++ digits)) /\
    parseDigits 10 digits = Some (Z.abs v) /\
    (digits = [chr "0"] \/ hd 0 digits <> chr "0").
Proof.
  intros Hv. unfold vprintf, doprintf, fuelFor.
  set (f0 := mkNativePrintArgs (cstr "%d") [VaInt v] mem []).
  set (f1 := mkNativePrintArgs (cstr "%d") [] mem []).
  change (List.length (cstr "%d") + List.length mem)%nat with (S (S (S (List.length mem)))).
  set (k := List.length mem).
  assert (Hopt : doprintf_optional (S (S (S (S k)))) 1 0 f0 = Ok ((0, -1, -1, LNone, 1), f0))
    by reflexivity.
  assert (Hint : getInteger LNone f0 = Ok (s32 (u32 v), f1)) by reflexivity.
  rewrite s32_u32, s32_small in Hint by lia.
  destruct (outInteger_native (u64 v) SignedYes (-1) (-1) 0 10 CapitalNo f1)
    as (digits & Hk & Hparse & Hz & Hnz & Hout);
    [unfold u64; apply Z.mod_pos_bound; lia | right; left; reflexivity | lia |].
  cbv zeta in Hout. rewrite magnitude_signed in * by lia.
  unfold signText in Hout. rewrite negative_signed in Hout by lia.
  change (altPrefix 0 10 CapitalNo) with (@nil Z) in Hout.
  rewrite app_nil_r in Hout.
  replace (Z.to_nat (-1 - Z.of_nat (List.length (if v <? 0 then [chr "-"] else []))
                     - Z.of_nat (List.length digits))) with 0%nat in Hout
    by (destruct (v <? 0); cbn [List.length]; lia).
  cbn [repeat app _fmt _args memory stdout f1] in Hout.
  match type of Hout with _ = Ok (?n0, ?f2') => set (n := n0) in *; set (f2 := f2') in * end.
  exists (s32 (0 + n)), digits. split; [|split; [exact Hparse|]].
  - assert (Hdir : doprintf_directive toString (S (S (S (S k)))) 0 0 (u32 (0 + 1)) f0
                   = Ok ((0, s32 (0 + n), 2), f2)).
    { unfold doprintf_directive. step Hopt.
      assert (Hc : getChar 1 f0 = Some (chr "d")) by reflexivity. step Hc.
      rewrite specifier_d, !bind_bind. step Hint. rewrite bind_bind. step Hout.
      reflexivity. }
    assert (Hc0 : getChar 0 f0 = Some (chr "%")) by reflexivity.
    unfold bind at 1.
    rewrite (doprintf_loop_directive toString _ _ 0 0 0 f0 f2 _ _ _ Hc0 Hdir).
    rewrite (doprintf_loop_end toString _ _ _ _ _ f2) by reflexivity.
    reflexivity.
  - destruct (Z.eq_dec (Z.abs v) 0) as [E | E]; [left; auto | right; auto].
Qed.

Lemma decimal_call_witness :
  exists m digits,
    vprintf (fun _ _ _ => []) (cstr "%d") [VaInt (-2147483648)] []
    = Ok (m, mkNativePrintArgs (cstr "%d") [] []
               ((if -2147483648 <? 0 then [chr "-"] else []) ++ digits)) /\
    parseDigits 10 digits = Some (Z.abs (-2147483648)) /\
    (digits = [chr "0"] \/ hd 0 digits <> chr "0").
Proof. apply (decimal_call (fun _ _ _ => []) (-2147483648) []). lia. Defined.

(** ** Widths and flags read from the format *)

Lemma parseDigits_from_digits (ds : list Z) :
  Forall digit ds ->
  exists v, 0 <= v /\
    forall acc, parseDigits_from 10 acc ds
                = Some (acc * 10 ^ Z.of_nat (List.length ds) + v).
Proof.
  induction 1 as [|d ds Hd _ (v & Hv & IH)].
  - exists 0. split; [lia|]. intros acc. cbn. f_equal. lia.
  - exists ((d - chr "0") * 10 ^ Z.of_nat (List.length ds) + v).
    unfold digit in Hd. split; [change (chr "0") with 48 in *; nia|].
    intros acc. cbn [parseDigits_from List.length].
    assert (Hh : hexDigit d = Some (d - chr "0")).
    { unfold hexDigit.
      replace ((chr "0" <=? d) && (d <=? chr "9")) with true; [reflexivity|].
      symmetry. apply andb_true_iff. split; apply Z.leb_le; lia. }
    rewrite Hh.
    replace (d - chr "0" <? 10) with true
      by (symmetry; apply Z.ltb_lt; change (chr "0") with 48 in *; change (chr "9") with 57 in *; lia).
    rewrite IH. f_equal. rewrite Nat2Z.inj_succ, Z.pow_succ_r by lia. ring.
Qed.

Lemma u32_mul_add (x k w : Z) : u32 (u32 x * k + w) = u32 (x * k + w).
Proof.
  unfold u32. rewrite <- Zplus_mod_idemp_l, Zmult_mod_idemp_l, Zplus_mod_idemp_l.
  reflexivity.
Qed.

Lemma toNumber_loop_digits (ds : list Z) :
  Forall digit ds ->
  forall (fuel : nat) (pre rest : list Z) (n c v : Z) (h : bool) (f : NativePrintArgs),
    _fmt f = pre ++ ds ++ c :: rest ->
    c < chr "0" \/ chr "9" < c ->
    (List.length ds < fuel)%nat ->
    Z.of_nat (List.length pre + List.length ds) < 2 ^ 32 ->
    0 <= n < 2 ^ 32 ->
    (forall acc, parseDigits_from 10 acc ds = Some (acc * 10 ^ Z.of_nat (List.length ds) + v)) ->
    toNumber_loop fuel (Z.of_nat (List.length pre)) n h f
    = Ok ((h || negb (Nat.eqb (List.length ds) 0),
           Z.of_nat (List.length pre + List.length ds),
           u32 (n * 10 ^ Z.of_nat (List.length ds) + v)), f).
Proof.
  induction 1 as [|d ds Hd Hds IH];
    intros fuel pre rest n c v h f Hfmt Hc Hfuel Hlen Hn Hparse;
    (destruct fuel as [|k]; [cbn in Hfuel; lia|]); cbn [toNumber_loop].
  - assert (Hr : getChar (Z.of_nat (List.length pre)) f = Some c).
    { cbn. unfold NativePrintArgs_getChar. rewrite Hfmt. apply load_app. }
    step Hr.
    replace ((c <? chr "0") || (c >? chr "9")) with true
      by (symmetry; apply orb_true_iff; rewrite Z.ltb_lt, Z.gtb_ltb, Z.ltb_lt; exact Hc).
    specialize (Hparse 0). cbn in Hparse. injection Hparse as Hparse.
    cbn [List.length Nat.eqb negb]. rewrite orb_false_r, Nat.add_0_r.
    replace (n * 10 ^ Z.of_nat 0 + v) with n by (cbn; lia).
    rewrite u32_small by lia. reflexivity.
  - assert (Hr : getChar (Z.of_nat (List.length pre)) f = Some d).
    { cbn. unfold NativePrintArgs_getChar. rewrite Hfmt. apply load_app. }
    step Hr. unfold digit in Hd.
    replace ((d <? chr "0") || (d >? chr "9")) with false
      by (symmetry; apply orb_false_iff; rewrite Z.ltb_ge, Z.gtb_ltb, Z.ltb_ge; lia).
    cbn [List.length] in *.
    destruct (parseDigits_from_digits ds Hds) as (v' & Hv' & Hparse').
    assert (Hv : v = (d - chr "0") * 10 ^ Z.of_nat (List.length ds) + v').
    { specialize (Hparse 0). cbn [parseDigits_from] in Hparse.
      assert (Hh : hexDigit d = Some (d - chr "0")).
      { unfold hexDigit.
        replace ((chr "0" <=? d) && (d <=? chr "9")) with true; [reflexivity|].
        symmetry. apply andb_true_iff. split; apply Z.leb_le; lia. }
      rewrite Hh in Hparse.
      replace (d - chr "0" <? 10) with true in Hparse
        by (symmetry; apply Z.ltb_lt; change (chr "0") with 48 in *;
            change (chr "9") with 57 in *; lia).
      rewrite Hparse' in Hparse. injection Hparse as Hparse.
      symmetry. exact Hparse. }
    rewrite (u32_small (Z.of_nat (List.length pre) + 1)) by lia.
    replace (Z.of_nat (List.length pre) + 1) with (Z.of_nat (List.length (pre ++ [d])))
      by (rewrite length_app; cbn [List.length]; lia).
    rewrite (IH k (pre ++ [d]) rest (u32 (n * 10 + d - chr "0")) c v' true f).
    + rewrite length_app. cbn [List.length Nat.eqb negb]. rewrite orb_true_r.
      f_equal. f_equal. f_equal.
      * f_equal. lia.
      * replace (n * 10 + d - chr "0") with (n * 10 + (d - chr "0")) by lia.
        rewrite u32_mul_add. f_equal. subst v.
        rewrite Nat2Z.inj_succ, Z.pow_succ_r by lia. ring.
    + rewrite Hfmt, <- app_assoc. reflexivity.
    + exact Hc.
    + lia.
    + rewrite length_app. cbn [List.length]. lia.
    + unfold u32. apply Z.mod_pos_bound. lia.
    + exact Hparse'.
Qed.

(** [handleWidth] on a run of decimal digits in the format: it returns
    their decimal value (reduced to 32 bits and read as signed; the value
    itself below 2^31), leaves the cursor on the first character that is
    not a digit, and fetches no argument. *)
Theorem handleWidth_digits (fuel : nat) (pre ds rest : list Z) (c : Z) (f : NativePrintArgs) :
  _fmt f = pre ++ ds ++ c :: rest ->
  Forall digit ds ->
  ds <> [] ->
  c < chr "0" \/ chr "9" < c ->
  (List.length ds < fuel)%nat ->
  Z.of_nat (List.length pre + List.length ds) < 2 ^ 32 ->
  exists v,
    parseDigits 10 ds = Some v /\
    handleWidth fuel (Z.of_nat (List.length pre)) f
    = Ok ((s32 (u32 v), Z.of_nat (List.length pre + List.length ds)), f) /\
    (v < 2 ^ 31 -> s32 (u32 v) = v).
Proof.
  intros Hfmt Hds Hne Hc Hfuel Hlen.
  destruct (parseDigits_from_digits ds Hds) as (v & Hv & Hparse).
  exists v. split; [|split].
  - unfold parseDigits. destruct ds; [congruence|]. rewrite Hparse. reflexivity.
  - unfold handleWidth.
    destruct ds as [|d ds']; [congruence|].
    assert (Hd : digit d) by (inversion Hds; assumption).
    assert (Hr : getChar (Z.of_nat (List.length pre)) f = Some d).
    { cbn. unfold NativePrintArgs_getChar. rewrite Hfmt. apply load_app. }
    step Hr. unfold digit in Hd.
    replace (d =? chr "*") with false
      by (symmetry; apply Z.eqb_neq; change (chr "*") with 42; change (chr "0") with 48 in *; lia).
    unfold toNumber.
    erewrite bind_Ok by
      (apply (toNumber_loop_digits (d :: ds') Hds fuel pre rest 0 c v false f);
       try assumption; lia).
    cbn [List.length Nat.eqb negb orb]. cbv beta iota.
    rewrite Z.mul_0_l, Z.add_0_l. reflexivity.
  - intros Hlt. rewrite u32_small, s32_small by lia. reflexivity.
Qed.

Lemma handleWidth_digits_witness :
  exists v,
    parseDigits 10 (bytes "12") = Some v /\
    handleWidth 5 (Z.of_nat (List.length (bytes "%")))
      (mkNativePrintArgs (cstr "%12d") [] [] [])
    = Ok ((s32 (u32 v), Z.of_nat (List.length (bytes "%") + List.length (bytes "12"))),
          mkNativePrintArgs (cstr "%12d") [] [] []) /\
    (v < 2 ^ 31 -> s32 (u32 v) = v).
Proof.
  apply (handleWidth_digits 5 (bytes "%") (bytes "12") [0] (chr "d")
           (mkNativePrintArgs (cstr "%12d") [] [] []));
    [ reflexivity | repeat constructor; cbn; lia | discriminate | right; cbn; lia
    | cbn; lia | cbn; lia ].
Defined.

Lemma Flag_bit_range (flag : Flag) : 0 <= Flag_bit flag < 8.
Proof. destruct flag; cbn; lia. Qed.

Lemma isFlag_setFlag_eq (flags : Z) (x y : Flag) :
  isFlag (setFlag flags x) y = (Flag_bit x =? Flag_bit y) || isFlag flags y.
Proof.
  rewrite !isFlag_testbit. unfold setFlag, u8.
  pose proof (Flag_bit_range x). pose proof (Flag_bit_range y).
  rewrite Z.mod_pow2_bits_low by lia.
  rewrite Z.lor_spec.
  replace (Flag_value x) with (2 ^ Flag_bit x) by (destruct x; reflexivity).
  rewrite Z.pow2_bits_eqb by lia. apply orb_comm.
Qed.

Lemma setFlag_range (flags : Z) (x : Flag) : 0 <= setFlag flags x < 256.
Proof. unfold setFlag, u8. apply Z.mod_pos_bound. lia. Qed.

(** [setFlag] and [isFlag]: a flag that is set reads as set, setting it
    does not change how any other flag reads, and setting it twice is
    setting it once. *)
Theorem setFlag_isFlag (flags : Z) (x : Flag) :
  isFlag (setFlag flags x) x = true /\
  (forall y, y <> x -> isFlag (setFlag flags x) y = isFlag flags y) /\
  setFlag (setFlag flags x) x = setFlag flags x.
Proof.
  split; [|split].
  - rewrite isFlag_setFlag_eq, Z.eqb_refl. reflexivity.
  - intros y Hy. rewrite isFlag_setFlag_eq.
    replace (Flag_bit x =? Flag_bit y) with false; [reflexivity|].
    symmetry. apply Z.eqb_neq. destruct x, y; cbn; congruence.
  - unfold setFlag, u8. apply Z.bits_inj'. intros i Hi.
    destruct (Z_lt_ge_dec i 8) as [Hlt | Hge].
    + rewrite !Z.mod_pow2_bits_low by lia. rewrite !Z.lor_spec.
      rewrite Z.mod_pow2_bits_low by lia. rewrite Z.lor_spec.
      destruct (Z.testbit flags i), (Z.testbit (Flag_value x) i); reflexivity.
    + rewrite !Z.mod_pow2_bits_high by lia. reflexivity.
Qed.

Lemma handleFlags_run (fs : list Z) :
  Forall (fun ch => exists fl, ch = Flag_char fl) fs ->
  forall (fuel : nat) (pre rest : list Z) (c flags : Z) (f : NativePrintArgs),
    _fmt f = pre ++ fs ++ c :: rest ->
    existsb (Z.eqb c) (bytes "-+ #0") = false ->
    (List.length fs < fuel)%nat ->
    Z.of_nat (List.length pre + List.length fs) < 2 ^ 32 ->
    exists flags',
      handleFlags fuel (Z.of_nat (List.length pre)) flags f
      = Ok ((Z.of_nat (List.length pre + List.length fs), flags'), f) /\
      forall fl, isFlag flags' fl = isFlag flags fl || existsb (Z.eqb (Flag_char fl)) fs.
Proof.
  induction 1 as [|ch fs [x ->] _ IH]; intros fuel pre rest c flags f Hfmt Hc Hfuel Hlen;
    (destruct fuel as [|k]; [cbn in Hfuel; lia|]).
  - exists flags. split.
    + rewrite Nat.add_0_r. apply (handleFlags_stop k _ flags c f); [|exact Hc].
      cbn. unfold NativePrintArgs_getChar. rewrite Hfmt. apply load_app.
    + intros fl. cbn. now rewrite orb_false_r.
  - cbn [List.length] in *.
    assert (Hr : getChar (Z.of_nat (List.length pre)) f = Some (Flag_char x)).
    { cbn. unfold NativePrintArgs_getChar. rewrite Hfmt. apply load_app. }
    destruct (IH k (pre ++ [Flag_char x]) rest c (setFlag flags x) f) as (flags' & Hrun & Hset).
    { rewrite Hfmt, <- app_assoc. reflexivity. }
    { exact Hc. }
    { lia. }
    { rewrite length_app. cbn [List.length]. lia. }
    exists flags'. split.
    + cbn [handleFlags]. step Hr.
      rewrite (u32_small (Z.of_nat (List.length pre) + 1)) by lia.
      replace (Z.of_nat (List.length pre) + 1)
        with (Z.of_nat (List.length (pre ++ [Flag_char x])))
        by (rewrite length_app; cbn [List.length]; lia).
      replace (List.length pre + S (List.length fs))%nat
        with (List.length (pre ++ [Flag_char x]) + List.length fs)%nat
        by (rewrite length_app; cbn [List.length]; lia).
      destruct x; exact Hrun.
    + intros fl. rewrite Hset, isFlag_setFlag_eq. cbn [existsb].
      replace (Flag_bit x =? Flag_bit fl) with (Flag_char fl =? Flag_char x)
        by (destruct x, fl; reflexivity).
      destruct (Flag_char fl =? Flag_char x), (isFlag flags fl); reflexivity.
Qed.

(** [handleFlags] on a run of flag characters in the format: the cursor
    ends on the first character that is not a flag, and a flag is set
    afterwards exactly when it was set before or its character is in the
    run, in whatever order and however often. *)
Theorem handleFlags_sets_the_flags_read (fuel : nat) (pre fs rest : list Z) (c flags : Z)
  (f : NativePrintArgs) :
  _fmt f = pre ++ fs ++ c :: rest ->
  Forall (fun ch => exists fl, ch = Flag_char fl) fs ->
  existsb (Z.eqb c) (bytes "-+ #0") = false ->
  (List.length fs < fuel)%nat ->
  Z.of_nat (List.length pre + List.length fs) < 2 ^ 32 ->
  exists flags',
    handleFlags fuel (Z.of_nat (List.length pre)) flags f
    = Ok ((Z.of_nat (List.length pre + List.length fs), flags'), f) /\
    forall fl, isFlag flags' fl = isFlag flags fl || existsb (Z.eqb (Flag_char fl)) fs.
Proof.
  intros Hfmt Hfs Hc Hfuel Hlen.
  exact (handleFlags_run fs Hfs fuel pre rest c flags f Hfmt Hc Hfuel Hlen).
Qed.

Lemma handleFlags_sets_the_flags_read_witness :
  exists flags',
    handleFlags 5 (Z.of_nat (List.length (bytes "%")))
      (Flag_value plus) (mkNativePrintArgs (cstr "%0#0x") [] [] [])
    = Ok ((Z.of_nat (List.length (bytes "%") + List.length (bytes "0#0")), flags'),
          mkNativePrintArgs (cstr "%0#0x") [] [] []) /\
    forall fl, isFlag flags' fl
               = isFlag (Flag_value plus) fl || existsb (Z.eqb (Flag_char fl)) (bytes "0#0").
Proof.
  apply (handleFlags_sets_the_flags_read 5 (bytes "%") (bytes "0#0") [0] (chr "x")
           (Flag_value plus) (mkNativePrintArgs (cstr "%0#0x") [] [] []));
    [ reflexivity
    | repeat constructor; [exists zeroPad | exists alt | exists zeroPad]; reflexivity
    | reflexivity | cbn; lia | cbn; lia ].
Defined.

(** ** More of the buffer sink *)

Section BufferSink.

Variable s : list Z.
Variable n : Z.
Hypothesis n_pos : 1 <= n.
Hypothesis n_u16 : n < 2 ^ 16.
Hypothesis s_length : Z.of_nat (List.length s) = n.
Variable toString : Z -> Z -> Z -> list Z.

(** [vformat] against [vprintf] on the same format and arguments, in
    every outcome. *)
Lemma vformat_simulates (fmt : list Z) (args : list va_slot) (mem : list Z) :
  match vprintf toString fmt args mem with
  | Ok (m, p) =>
      exists q, vformat toString s n fmt args mem = Ok (m, q)
                /\ _args (base q) = _args p
                /\ _buf q = stored s n (stdout p ++ [0])
  | Fault => vformat toString s n fmt args mem = Fault
  | OutOfFuel => vformat toString s n fmt args mem = OutOfFuel
  end.
Proof.
  unfold vprintf, vformat, doprintf.
  set (p0 := mkNativePrintArgs fmt args mem []).
  set (q0 := mkNativeFormatArgs p0 s (u16 n) 0).
  assert (R0 : truncates s n p0 q0).
  { repeat split; cbn; unfold u16; [apply Z.mod_small; lia |].
    unfold stored. cbn. now rewrite firstn_nil. }
  pose proof (sim_doprintf_loop s n n_pos n_u16 s_length toString
                (fuelFor fmt mem) (fuelFor fmt mem) 0 0 0 p0 q0 R0) as Hl.
  unfold bind.
  destruct (doprintf_loop toString _ _ 0 0 0 p0) as [[size p1]| |].
  - destruct Hl as (q1 & -> & R1).
    pose proof (sim_putChar s n n_pos n_u16 s_length 0 p1 q1 R1) as He. cbn in He.
    destruct He as (q2 & He & R2).
    unfold wr in He |- *. cbn [end_ NativeFormatArgs_FormatterArgs NativePrintArgs_FormatterArgs].
    destruct (NativeFormatArgs_putChar 0 q1) as [q2'|]; [|discriminate].
    injection He as ->. cbn.
    exists q2. split; [reflexivity|].
    destruct R2 as (_ & Ha & _ & _ & Hb & _). cbn in Ha, Hb. split; assumption.
  - rewrite Hl. reflexivity.
  - rewrite Hl. reflexivity.
Qed.

Lemma stored_length (out : list Z) : List.length (stored s n out) = List.length s.
Proof.
  unfold stored. rewrite length_app, length_firstn, length_skipn. lia.
Qed.

Lemma stored_tail (out : list Z) :
  skipn (Z.to_nat (n - 1)) (stored s n out) = skipn (Z.to_nat (n - 1)) s.
Proof.
  unfold stored. rewrite skipn_app, length_firstn.
  destruct (Nat.le_gt_cases (Z.to_nat (n - 1)) (List.length out)) as [Hle | Hgt].
  - rewrite skipn_all2 by (rewrite length_firstn; lia).
    rewrite !Nat.min_l, Nat.sub_diag by lia. rewrite Nat.min_r by lia. reflexivity.
  - rewrite firstn_all2 by lia. rewrite skipn_all2 by lia.
    rewrite Nat.min_r by lia. rewrite Nat.min_l by lia.
    rewrite skipn_skipn. cbn [app]. f_equal. lia.
Qed.

(** When the output is shorter than [n - 1] characters, [vformat] leaves
    in the buffer the whole output, then a terminator, then what the
    buffer held behind them; read as a C string the buffer is the output
    (if the output has no zero byte of its own). *)
Theorem vformat_fits_terminated (fmt : list Z) (args : list va_slot) (mem : list Z)
  (m : Z) (p : NativePrintArgs) :
  vprintf toString fmt args mem = Ok (m, p) ->
  Z.of_nat (List.length (stdout p)) < n - 1 ->
  exists q, vformat toString s n fmt args mem = Ok (m, q)
            /\ _buf q = stdout p ++ 0 :: skipn (S (List.length (stdout p))) s
            /\ (Forall (fun c => c <> 0) (stdout p) -> strz (_buf q) = Some (stdout p)).
Proof.
  intros Hp Hlen. pose proof (vformat_simulates fmt args mem) as H. rewrite Hp in H.
  destruct H as (q & Hq & _ & Hb). exists q. split; [exact Hq|].
  assert (Hbuf : _buf q = stdout p ++ 0 :: skipn (S (List.length (stdout p))) s).
  { rewrite Hb, stored_short by (rewrite length_app; cbn [List.length]; lia).
    rewrite <- app_assoc, length_app. cbn [app List.length]. do 3 f_equal. lia. }
  split; [exact Hbuf|]. intros Hnz. rewrite Hbuf. apply strz_app, Hnz.
Qed.

(** [vformat] never writes the last byte of the buffer: for every format
    and whatever the length of the output, the buffer keeps its length and
    its bytes from index [n - 1] on. *)
Theorem vformat_keeps_last_byte (fmt : list Z) (args : list va_slot) (mem : list Z)
  (m : Z) (p : NativePrintArgs) :
  vprintf toString fmt args mem = Ok (m, p) ->
  exists q, vformat toString s n fmt args mem = Ok (m, q)
            /\ List.length (_buf q) = List.length s
            /\ skipn (Z.to_nat (n - 1)) (_buf q) = skipn (Z.to_nat (n - 1)) s.
Proof.
  intros Hp. pose proof (vformat_simulates fmt args mem) as H. rewrite Hp in H.
  destruct H as (q & Hq & _ & Hb). exists q. split; [exact Hq|].
  rewrite Hb. split; [apply stored_length | apply stored_tail].
Qed.

(** The buffer changes nothing else about a call: [vformat] returns the
    count [vprintf] returns, has fetched the same arguments, and is
    undefined exactly when [vprintf] is. *)
Theorem vformat_as_vprintf (fmt : list Z) (args : list va_slot) (mem : list Z) :
  match vprintf toString fmt args mem with
  | Ok (m, p) =>
      exists q, vformat toString s n fmt args mem = Ok (m, q) /\ _args (base q) = _args p
  | Fault => vformat toString s n fmt args mem = Fault
  | OutOfFuel => vformat toString s n fmt args mem = OutOfFuel
  end.
Proof.
  pose proof (vformat_simulates fmt args mem) as H.
  destruct (vprintf toString fmt args mem) as [[m p]| |]; try exact H.
  destruct H as (q & Hq & Ha & _). exists q. split; assumption.
Qed.

End BufferSink.

Lemma vformat_fits_terminated_witness :
  exists q, vformat (fun _ _ _ => []) (bytes "XXXXXXXX") 8 (cstr "%d!") [VaInt 42] [] = Ok (22, q)
            /\ _buf q = bytes "42!" ++ 0 :: skipn (S (List.length (bytes "42!"))) (bytes "XXXXXXXX")
            /\ (Forall (fun c => c <> 0) (bytes "42!") -> strz (_buf q) = Some (bytes "42!")).
Proof.
  apply (vformat_fits_terminated (bytes "XXXXXXXX") 8 ltac:(lia) ltac:(lia) eq_refl
           (fun _ _ _ => []) (cstr "%d!") [VaInt 42] [] 22
           (mkNativePrintArgs (cstr "%d!") [] [] (bytes "42!")));
    [reflexivity | vm_compute; reflexivity].
Defined.

Lemma vformat_keeps_last_byte_witness :
  exists q, vformat (fun _ _ _ => []) (bytes "XXXX") 4 (cstr "%d!") [VaInt 42] [] = Ok (22, q)
            /\ List.length (_buf q) = List.length (bytes "XXXX")
            /\ skipn (Z.to_nat (4 - 1)) (_buf q) = skipn (Z.to_nat (4 - 1)) (bytes "XXXX").
Proof.
  apply (vformat_keeps_last_byte (bytes "XXXX") 4 ltac:(lia) ltac:(lia) eq_refl
           (fun _ _ _ => []) (cstr "%d!") [VaInt 42] [] 22
           (mkNativePrintArgs (cstr "%d!") [] [] (bytes "42!")));
    reflexivity.
Defined.

Lemma vformat_as_vprintf_witness :
  match vprintf (fun _ _ _ => []) (cstr "%d%d") [VaInt 42] [] with
  | Ok (m, p) =>
      exists q, vformat (fun _ _ _ => []) (bytes "XXXX") 4 (cstr "%d%d") [VaInt 42] [] = Ok (m, q)
                /\ _args (base q) = _args p
  | Fault => vformat (fun _ _ _ => []) (bytes "XXXX") 4 (cstr "%d%d") [VaInt 42] [] = Fault
  | OutOfFuel => vformat (fun _ _ _ => []) (bytes "XXXX") 4 (cstr "%d%d") [VaInt 42] [] = OutOfFuel
  end.
Proof.
  apply (vformat_as_vprintf (bytes "XXXX") 4 ltac:(lia) ltac:(lia) eq_refl
           (fun _ _ _ => []) (cstr "%d%d") [VaInt 42] []).
Defined.

(** ** Whole calls *)

(** A format without [%]: the call writes the text up to the terminator
    as it is, returns its length, fetches no argument, and reads nothing
    behind the terminator. *)
Theorem vprintf_literal (toString : Z -> Z -> Z -> list Z)
  (t rest : list Z) (args : list va_slot) (mem : list Z) :
  Forall literal t ->
  Z.of_nat (List.length t) < 2 ^ 31 ->
  vprintf toString (t ++ 0 :: rest) args mem
  = Ok (Z.of_nat (List.length t), mkNativePrintArgs (t ++ 0 :: rest) args mem t).
Proof.
  intros Ht Hlen. unfold vprintf, doprintf, fuelFor.
  set (f0 := mkNativePrintArgs (t ++ 0 :: rest) args mem []).
  assert (Hfuel : S (List.length (t ++ 0 :: rest) + List.length mem)
                  = (List.length t + S (S (List.length rest + List.length mem)))%nat).
  { rewrite length_app. cbn [List.length]. lia. }
  unfold bind at 1. rewrite Hfuel at 2.
  rewrite (doprintf_loop_literals toString t Ht _ _ 0 0 [] (0 :: rest) f0 eq_refl)
    by (cbn [List.length]; lia).
  cbn [List.length Nat.add Z.add _fmt _args memory stdout f0 app].
  rewrite doprintf_loop_end by (cbn; unfold NativePrintArgs_getChar; cbn [_fmt]; apply load_app).
  reflexivity.
Qed.

Lemma vprintf_literal_witness :
  vprintf (fun _ _ _ => []) (bytes "hello" ++ 0 :: bytes "%s") [VaInt 1] []
  = Ok (Z.of_nat (List.length (bytes "hello")),
        mkNativePrintArgs (bytes "hello" ++ 0 :: bytes "%s") [VaInt 1] [] (bytes "hello")).
Proof.
  apply (vprintf_literal (fun _ _ _ => []) (bytes "hello") (bytes "%s") [VaInt 1] []);
    [repeat constructor; discriminate | cbn; lia].
Defined.

(** Every call ends: for a format shorter than 2^32 - 1 bytes each loop of
    the engine moves its cursor on, and either reaches a terminator or
    leaves the memory it reads; the bound on the loops of the model is
    never what stops [vprintf] or [vformat]. *)
Theorem calls_end (toString : Z -> Z -> Z -> list Z)
  (fmt : list Z) (args : list va_slot) (mem : list Z) (s : list Z) (n : Z) :
  Z.of_nat (List.length fmt) < 2 ^ 32 - 1 ->
  Z.of_nat (List.length mem) < 2 ^ 64 ->
  1 <= n < 2 ^ 16 ->
  Z.of_nat (List.length s) = n ->
  vprintf toString fmt args mem <> OutOfFuel /\
  vformat toString s n fmt args mem <> OutOfFuel.
Proof.
  intros Hf Hm Hn Hs. split.
  - apply vprintf_ends; assumption.
  - apply vformat_ends; try assumption; lia.
Qed.

Lemma calls_end_witness :
  vprintf (fun _ _ _ => []) (cstr "%5d%%%s") [VaInt 7] [] <> OutOfFuel /\
  vformat (fun _ _ _ => []) (bytes "XXXX") 4 (cstr "%5d%%%s") [VaInt 7] [] <> OutOfFuel.
Proof.
  apply (calls_end (fun _ _ _ => []) (cstr "%5d%%%s") [VaInt 7] [] (bytes "XXXX") 4);
    [cbn; lia | cbn; lia | lia | reflexivity].
Defined.

(** No directive clears a flag: one that is set when a directive starts
    is set when it ends, for every sink. *)
Theorem flags_are_never_cleared {F : Type} `{FormatterArgs F}
  (toString : Z -> Z -> Z -> list Z) (flag : Flag) (fuel : nat)
  (flags size fmt : Z) (f f' : F) (flags' size' fmt' : Z) :
  doprintf_directive toString fuel flags size fmt f = Ok ((flags', size', fmt'), f') ->
  isFlag flags flag = true ->
  isFlag flags' flag = true.
Proof. apply doprintf_directive_keeps_flags. Qed.

Lemma flags_are_never_cleared_witness :
  isFlag 24 zeroPad = true.
Proof.
  apply (flags_are_never_cleared (fun _ _ _ => []) zeroPad 3 (Flag_value zeroPad) 0 1
           (mkNativePrintArgs (cstr "%#x") [VaInt 255] [] [])
           (mkNativePrintArgs (cstr "%#x") [] [] (bytes "0xff")) 24 23 3);
    reflexivity.
Defined.

(** A [%s] directive whose width is not given, or does not exceed the
    length [L] of the string: it writes the [L] bytes before the
    terminator and nothing else, and adds [L] to the running size,
    whatever the precision and the flags. *)
Theorem string_directive_unpadded (toString : Z -> Z -> Z -> list Z)
  (fuel : nat) (width precision flags size fmt p : Z) (length : Length)
  (f : NativePrintArgs) (args : list va_slot) (text rest : list Z) :
  _args f = VaPtr p :: args ->
  0 <= p ->
  p + Z.of_nat (List.length text) < 2 ^ 64 ->
  skipn (Z.to_nat p) (memory f) = text ++ 0 :: rest ->
  Forall (fun c => c <> 0) text ->
  (List.length text < fuel)%nat ->
  Z.of_nat (List.length text) < 2 ^ 31 ->
  width <= Z.of_nat (List.length text) ->
  doprintf_specifier toString fuel (chr "s") width precision flags length size fmt f
  = Ok ((s32 (size + Z.of_nat (List.length text)), fmt),
        mkNativePrintArgs (_fmt f) args (memory f) (stdout f ++ text)).
Proof.
  intros Hargs Hp Hwrap Hmem Hnz Hfuel Hlen Hw.
  rewrite specifier_s.
  assert (Harg : getArg str f
                 = Some (p, mkNativePrintArgs (_fmt f) args (memory f) (stdout f))).
  { cbn. unfold NativePrintArgs_getArg. rewrite Hargs. now rewrite u64_small by lia. }
  step Harg. unfold outString. rewrite !bind_bind.
  erewrite bind_Ok by
    (apply (outString_loop_native text Hnz fuel p 0 rest); cbn [memory]; try assumption; lia).
  cbv beta. rewrite Z.add_0_l.
  replace (width >? Z.of_nat (List.length text)) with false
    by (symmetry; rewrite Z.gtb_ltb; apply Z.ltb_ge; lia).
  reflexivity.
Qed.

Lemma string_directive_unpadded_witness :
  doprintf_specifier (fun _ _ _ => []) 3 (chr "s") 1 0 (Flag_value leftJustify) LNone 0 4
    (mkNativePrintArgs (cstr "%-1.0s") [VaPtr 0] (cstr "hi") [])
  = Ok ((2, 4), mkNativePrintArgs (cstr "%-1.0s") [] (cstr "hi") (bytes "hi")).
Proof.
  apply (string_directive_unpadded (fun _ _ _ => []) 3 1 0 (Flag_value leftJustify) 0 4 0 LNone
           (mkNativePrintArgs (cstr "%-1.0s") [VaPtr 0] (cstr "hi") []) [] (bytes "hi") []);
    [ reflexivity | lia | cbn; lia | reflexivity
    | repeat constructor; discriminate | cbn; lia | cbn; lia | cbn; lia ].
Defined.

(** [%*d]: the call fetches the width first and the value second; it
    writes the sign, then spaces up to the width, then the digits.  A
    negative width is not taken as left-justify: it gives no padding. *)
Theorem star_width_call (toString : Z -> Z -> Z -> list Z) (w v : Z) (mem : list Z) :
  - 2 ^ 30 <= w < 2 ^ 30 ->
  - 2 ^ 31 <= v < 2 ^ 31 ->
  exists m digits,
    vprintf toString (cstr "%*d") [VaInt w; VaInt v] mem
    = Ok (m, mkNativePrintArgs (cstr "%*d") [] mem
               ((if v <? 0 then [chr "-"] else [])
                ++ repeat (chr " ")
                     (Z.to_nat (w - (if v <? 0 then 1 else 0) - Z.of_nat (List.length digits)))
                ++ digits)) /\
    parseDigits 10 digits = Some (Z.abs v) /\
    (digits = [chr "0"] \/ hd 0 digits <> chr "0").
Proof.
  intros Hw Hv. unfold vprintf, doprintf, fuelFor.
  set (f0 := mkNativePrintArgs (cstr "%*d") [VaInt w; VaInt v] mem []).
  set (f1 := mkNativePrintArgs (cstr "%*d") [VaInt v] mem []).
  set (f2 := mkNativePrintArgs (cstr "%*d") [] mem []).
  change (List.length (cstr "%*d") + List.length mem)%nat
    with (S (S (S (S (List.length mem))))).
  set (k := List.length mem).
  assert (Hopt : doprintf_optional (S (S (S (S (S k))))) 1 0 f0
                 = Ok ((0, s32 (u32 w), -1, LNone, 2), f1)) by reflexivity.
  rewrite s32_u32, s32_small in Hopt by lia.
  assert (Hint : getInteger LNone f1 = Ok (s32 (u32 v), f2)) by reflexivity.
  rewrite s32_u32, s32_small in Hint by lia.
  destruct (outInteger_native (u64 v) SignedYes w (-1) 0 10 CapitalNo f2)
    as (digits & Hk & Hparse & Hz & Hnz & Hout);
    [unfold u64; apply Z.mod_pos_bound; lia | right; left; reflexivity | lia |].
  cbv zeta in Hout. rewrite magnitude_signed in * by lia.
  unfold signText in Hout. rewrite negative_signed in Hout by lia.
  change (altPrefix 0 10 CapitalNo) with (@nil Z) in Hout.
  rewrite app_nil_r in Hout.
  change (isFlag 0 zeroPad) with false in Hout. cbv iota in Hout.
  replace (Z.of_nat (List.length (if v <? 0 then [chr "-"] else [])))
    with (if v <? 0 then 1 else 0) in Hout by (destruct (v <? 0); reflexivity).
  cbn [_fmt _args memory stdout f2 app] in Hout.
  match type of Hout with _ = Ok (?n0, ?f3') => set (n := n0) in *; set (f3 := f3') in * end.
  exists (s32 (0 + n)), digits. split; [|split; [exact Hparse|]].
  - assert (Hdir : doprintf_directive toString (S (S (S (S (S k))))) 0 0 (u32 (0 + 1)) f0
                   = Ok ((0, s32 (0 + n), 3), f3)).
    { unfold doprintf_directive. step Hopt.
      assert (Hc : getChar 2 f1 = Some (chr "d")) by reflexivity. step Hc.
      rewrite specifier_d, !bind_bind. step Hint. rewrite bind_bind. step Hout.
      reflexivity. }
    assert (Hc0 : getChar 0 f0 = Some (chr "%")) by reflexivity.
    unfold bind at 1.
    rewrite (doprintf_loop_directive toString _ _ 0 0 0 f0 f3 _ _ _ Hc0 Hdir).
    rewrite (doprintf_loop_end toString _ _ _ _ _ f3) by reflexivity.
    reflexivity.
  - destruct (Z.eq_dec (Z.abs v) 0) as [E | E]; [left; auto | right; auto].
Qed.

Lemma star_width_call_witness :
  exists m digits,
    vprintf (fun _ _ _ => []) (cstr "%*d") [VaInt 5; VaInt (-3)] []
    = Ok (m, mkNativePrintArgs (cstr "%*d") [] []
               ((if -3 <? 0 then [chr "-"] else [])
                ++ repeat (chr " ")
                     (Z.to_nat (5 - (if -3 <? 0 then 1 else 0) - Z.of_nat (List.length digits)))
                ++ digits)) /\
    parseDigits 10 digits = Some (Z.abs (-3)) /\
    (digits = [chr "0"] \/ hd 0 digits <> chr "0").
Proof. apply (star_width_call (fun _ _ _ => []) 5 (-3) []); lia. Defined.

(** The text at that input, and with a negative width. *)
Lemma star_width_examples (toString : Z -> Z -> Z -> list Z) :
  (exists m, vprintf toString (cstr "%*d") [VaInt 5; VaInt (-3)] []
             = Ok (m, mkNativePrintArgs (cstr "%*d") [] [] (bytes "-   3"))) /\
  (exists m, vprintf toString (cstr "%*d") [VaInt (-5); VaInt 3] []
             = Ok (m, mkNativePrintArgs (cstr "%*d") [] [] (bytes "3"))).
Proof. split; eexists; vm_compute; reflexivity. Qed.

(** [%c]: the call writes the low byte of the argument and returns 1. *)
Theorem char_call (toString : Z -> Z -> Z -> list Z) (v : Z) (mem : list Z) :
  vprintf toString (cstr "%c") [VaInt v] mem
  = Ok (1, mkNativePrintArgs (cstr "%c") [] mem [v mod 256]).
Proof.
  unfold vprintf, doprintf, fuelFor.
  set (f0 := mkNativePrintArgs (cstr "%c") [VaInt v] mem []).
  change (List.length (cstr "%c") + List.length mem)%nat with (S (S (S (List.length mem)))).
  set (k := List.length mem).
  set (f2 := mkNativePrintArgs (cstr "%c") [] mem [u8 (u32 v)]).
  assert (Hdir : doprintf_directive toString (S (S (S (S k)))) 0 0 (u32 (0 + 1)) f0
                 = Ok ((0, 1, 2), f2)) by reflexivity.
  assert (Hc0 : getChar 0 f0 = Some (chr "%")) by reflexivity.
  unfold bind at 1.
  rewrite (doprintf_loop_directive toString _ _ 0 0 0 f0 f2 _ _ _ Hc0 Hdir).
  rewrite (doprintf_loop_end toString _ _ _ _ _ f2) by reflexivity.
  assert (Hlow : u8 (u32 v) = v mod 256).
  { unfold u8, u32. change (2 ^ 32) with (2 ^ 8 * 2 ^ 24).
    rewrite Z.rem_mul_r by lia.
    rewrite Z.mul_comm, Z.mod_add by lia. apply Z.mod_mod. lia. }
  unfold f2. rewrite Hlow. reflexivity.
Qed.

(** ** The engine sees a sink only through its operations *)

Section Parametric.

Context {F1 F2 : Type} `{FormatterArgs F1} `{FormatterArgs F2}.
Variable R : F1 -> F2 -> Prop.

Hypothesis R_getChar : forall i p q, R p q -> getChar i p = getChar i q.
Hypothesis R_getStringChar : forall i p q, R p q -> getStringChar i p = getStringChar i q.
Hypothesis R_getArg : forall t p q, R p q ->
  match getArg t p, getArg t q with
  | Some (v, p'), Some (w, q') => v = w /\ R p' q'
  | None, None => True
  | _, _ => False
  end.
Hypothesis R_putChar : forall c p q, R p q ->
  match putChar c p, putChar c q with
  | Some p', Some q' => R p' q'
  | None, None => True
  | _, _ => False
  end.

Variable toString : Z -> Z -> Z -> list Z.

Lemma simulated_ret {A : Type} (a : A) : simulated R (ret a) (ret a).
Proof. intros p q Hr. cbn. split; [reflexivity | exact Hr]. Qed.

Lemma simulated_timeout {A : Type} : simulated R (@timeout _ A) (@timeout _ A).
Proof. intros p q Hr. exact I. Qed.

Lemma simulated_bind {A B : Type} (m1 : M F1 A) (m2 : M F2 A)
  (k1 : A -> M F1 B) (k2 : A -> M F2 B) :
  simulated R m1 m2 -> (forall a, simulated R (k1 a) (k2 a)) ->
  simulated R (bind m1 k1) (bind m2 k2).
Proof.
  intros Hm Hk p q Hr. specialize (Hm p q Hr). unfold bind.
  destruct (m1 p) as [[a p']| |], (m2 q) as [[b q']| |]; try contradiction; try exact I.
  destruct Hm as [<- Hr']. apply Hk, Hr'.
Qed.

Lemma simulated_pure {A : Type} (o : option A) : simulated R (pure_ o) (pure_ o).
Proof. intros p q Hr. unfold pure_. destruct o; [split; [reflexivity | exact Hr] | exact I]. Qed.

Lemma simulated_getChar (i : Z) : simulated R (rd (getChar i)) (rd (getChar i)).
Proof.
  intros p q Hr. unfold rd. rewrite (R_getChar i p q Hr).
  destruct (getChar i q); [split; [reflexivity | exact Hr] | exact I].
Qed.

Lemma simulated_getStringChar (i : Z) :
  simulated R (rd (getStringChar i)) (rd (getStringChar i)).
Proof.
  intros p q Hr. unfold rd. rewrite (R_getStringChar i p q Hr).
  destruct (getStringChar i q); [split; [reflexivity | exact Hr] | exact I].
Qed.

Lemma simulated_getArg (t : ArgType) : simulated R (st (getArg t)) (st (getArg t)).
Proof.
  intros p q Hr. unfold st. pose proof (R_getArg t p q Hr) as Ha.
  destruct (getArg t p) as [[v p']|], (getArg t q) as [[w q']|]; try contradiction; exact Ha.
Qed.

Lemma simulated_putChar (c : Z) : simulated R (wr (putChar c)) (wr (putChar c)).
Proof.
  intros p q Hr. unfold wr. pose proof (R_putChar c p q Hr) as Hp.
  destruct (putChar c p) as [p'|], (putChar c q) as [q'|]; try contradiction; try exact I.
  split; [reflexivity | exact Hp].
Qed.

Ltac simulated_step :=
  first
    [ apply simulated_ret | apply simulated_timeout | apply simulated_pure
    | apply simulated_getChar | apply simulated_getStringChar
    | apply simulated_getArg | apply simulated_putChar
    | assumption
    | apply simulated_bind; [| intros ?]
    | match goal with
      | |- simulated _ (if ?b then _ else _) _ => destruct b
      | |- simulated _ (match ?x with _ => _ end) _ => destruct x
      | |- simulated _ (let (_, _) := ?x in _) _ => destruct x
      end ].

Lemma simulated_putChars (l : list Z) : simulated R (putChars l) (putChars l).
Proof. induction l; cbn [putChars]; repeat simulated_step. Qed.

Lemma simulated_toNumber_loop (fuel : nat) : forall fmt k h,
  simulated R (toNumber_loop fuel fmt k h) (toNumber_loop fuel fmt k h).
Proof. induction fuel; intros; cbn [toNumber_loop]; repeat simulated_step. apply IHfuel. Qed.

Lemma simulated_handleFlags (fuel : nat) : forall fmt flags,
  simulated R (handleFlags fuel fmt flags) (handleFlags fuel fmt flags).
Proof. induction fuel; intros; cbn [handleFlags]; repeat simulated_step; apply IHfuel. Qed.

Lemma simulated_handleWidth (fuel : nat) (fmt : Z) :
  simulated R (handleWidth fuel fmt) (handleWidth fuel fmt).
Proof. unfold handleWidth, toNumber. repeat simulated_step. apply simulated_toNumber_loop. Qed.

Lemma simulated_handleLength (fmt : Z) : simulated R (handleLength fmt) (handleLength fmt).
Proof. unfold handleLength. repeat simulated_step. Qed.

Lemma simulated_outInteger_pad (pad : nat) : forall padChar size,
  simulated R (outInteger_pad pad padChar size) (outInteger_pad pad padChar size).
Proof. induction pad; intros; cbn [outInteger_pad]; repeat simulated_step. apply IHpad. Qed.

Lemma simulated_outInteger value sign width precision flags base_ cap :
  simulated R (outInteger value sign width precision flags base_ cap)
    (outInteger value sign width precision flags base_ cap).
Proof.
  unfold outInteger.
  repeat first [apply simulated_outInteger_pad | apply simulated_putChars | simulated_step].
Qed.

Lemma simulated_outString_loop (fuel : nat) : forall p size,
  simulated R (outString_loop fuel p size) (outString_loop fuel p size).
Proof. induction fuel; intros; cbn [outString_loop]; repeat simulated_step. apply IHfuel. Qed.

Lemma simulated_outString fuel p width precision flags :
  simulated R (outString fuel p width precision flags)
    (outString fuel p width precision flags).
Proof.
  unfold outString.
  repeat first [apply simulated_outString_loop | apply simulated_putChars | simulated_step].
Qed.

Lemma simulated_doprintf_directive fuel flags size fmt :
  simulated R (doprintf_directive toString fuel flags size fmt)
    (doprintf_directive toString fuel flags size fmt).
Proof.
  unfold doprintf_directive, doprintf_optional, doprintf_specifier, getInteger.
  repeat first
    [ apply simulated_handleFlags | apply simulated_handleWidth | apply simulated_handleLength
    | apply simulated_outInteger | apply simulated_outString | apply simulated_putChars
    | simulated_step ].
Qed.

Lemma simulated_doprintf_loop inner (fuel : nat) : forall flags size fmt,
  simulated R (doprintf_loop toString inner fuel flags size fmt)
    (doprintf_loop toString inner fuel flags size fmt).
Proof.
  induction fuel; intros; cbn [doprintf_loop];
    repeat first [apply simulated_doprintf_directive | apply IHfuel | simulated_step].
Qed.

End Parametric.

(** ** A buffer without room *)

Lemma roomless_putChar (s : list Z) (c : Z) (p : NativePrintArgs) (q : NativeFormatArgs) :
  roomless s p q ->
  match putChar c p, putChar c q with
  | Some p', Some q' => roomless s p' q'
  | None, None => True
  | _, _ => False
  end.
Proof.
  intros (Hf & Ha & Hm & Hs & Hi & Hb). cbn. unfold NativeFormatArgs_putChar.
  replace (_index q <? _size q - 1) with false by (symmetry; apply Z.ltb_ge; lia).
  repeat split; assumption.
Qed.

(** A buffer of capacity 0 or 1: [vformat] writes nothing into it, not
    even a terminator, whatever the buffer is; the returned count and the
    definedness of the call are those of [vprintf]. *)
Theorem vformat_without_room (toString : Z -> Z -> Z -> list Z)
  (s : list Z) (n : Z) (fmt : list Z) (args : list va_slot) (mem : list Z) :
  n = 0 \/ n = 1 ->
  match vprintf toString fmt args mem with
  | Ok (m, p) => exists q, vformat toString s n fmt args mem = Ok (m, q) /\ _buf q = s
  | Fault => vformat toString s n fmt args mem = Fault
  | OutOfFuel => vformat toString s n fmt args mem = OutOfFuel
  end.
Proof.
  intros Hn. unfold vprintf, vformat, doprintf.
  set (p0 := mkNativePrintArgs fmt args mem []).
  set (q0 := mkNativeFormatArgs p0 s (u16 n) 0).
  assert (R0 : roomless s p0 q0).
  { repeat split. cbn. destruct Hn as [-> | ->]; cbn; lia. }
  assert (Hsim : simulated (roomless s)
                   (doprintf_loop toString (fuelFor fmt mem) (fuelFor fmt mem) 0 0 0)
                   (doprintf_loop toString (fuelFor fmt mem) (fuelFor fmt mem) 0 0 0)).
  { apply simulated_doprintf_loop.
    - intros i p q (Hf & _). cbn. unfold NativePrintArgs_getChar. now rewrite Hf.
    - intros i p q (_ & _ & Hm & _). cbn. unfold NativePrintArgs_getStringChar. now rewrite Hm.
    - intros t p q (Hf & Ha & Hm & Hs & Hi & Hb). cbn.
      unfold NativeFormatArgs_getArg, NativePrintArgs_getArg. rewrite Ha, Hf, Hm.
      destruct (_args p) as [|a rest]; [exact I|].
      destruct t, a; try exact I; (split; [reflexivity | repeat split; assumption]).
    - intros c p q. apply roomless_putChar. }
  specialize (Hsim p0 q0 R0). unfold bind.
  destruct (doprintf_loop toString _ _ 0 0 0 p0) as [[size p1]| |],
           (doprintf_loop toString _ _ 0 0 0 q0) as [[size' q1]| |];
    try contradiction; try reflexivity.
  destruct Hsim as [<- R1].
  pose proof (roomless_putChar s 0 p1 q1 R1) as He.
  unfold wr. cbn [end_ NativeFormatArgs_FormatterArgs NativePrintArgs_FormatterArgs].
  cbn [putChar NativeFormatArgs_FormatterArgs NativePrintArgs_FormatterArgs] in He.
  unfold NativePrintArgs_putChar in He.
  destruct (NativeFormatArgs_putChar 0 q1) as [q2|]; [|contradiction].
  cbn. exists q2. split; [reflexivity|]. apply He.
Qed.

Lemma vformat_without_room_witness :
  match vprintf (fun _ _ _ => []) (cstr "%d!") [VaInt 42] [] with
  | Ok (m, p) => exists q, vformat (fun _ _ _ => []) [] 0 (cstr "%d!") [VaInt 42] [] = Ok (m, q)
                           /\ _buf q = []
  | Fault => vformat (fun _ _ _ => []) [] 0 (cstr "%d!") [VaInt 42] [] = Fault
  | OutOfFuel => vformat (fun _ _ _ => []) [] 0 (cstr "%d!") [VaInt 42] [] = OutOfFuel
  end.
Proof.
  apply (vformat_without_room (fun _ _ _ => []) [] 0 (cstr "%d!") [VaInt 42] []).
  left. reflexivity.
Defined.
